(** * Advantage estimation and minibatch training of the Actor-Critic and
      Clipped-PPO agents

    Shallow embedding of [agents/actor_critic_agent.py] and
    [agents/clipped_ppo_agent.py].

    Numbers.  The agents compute on numpy [float64] arrays.  The embedding
    reads the discounting, the advantage estimators and the loss bookkeeping
    in exact real arithmetic ([R]).  The standardization of the advantages is
    different: whether it yields NaN or an infinity is decided by rounding, so
    that step is computed on binary64 numbers (the primitive floats, type
    [f64]).  One-dimensional arrays are lists.

    Faults.  A Python exception is a value [Raise e] of the [result] type;
    code that can raise is written in the exception monad. *)

From Stdlib Require Import Reals Lra Lia List Bool Arith PeanoNat Permutation.
From Stdlib Require Floats Uint63.
Import ListNotations.

Open Scope R_scope.

(** ** Exceptions *)

Inductive exn : Set :=
| IndexError
| ValueError
| ZeroDivisionError
| TypeError
| NameError.

Inductive result (A : Type) : Type :=
| Ok (a : A)
| Raise (e : exn).

Arguments Ok {A} a.
Arguments Raise {A} e.

Definition bind {A B : Type} (m : result A) (k : A -> result B) : result B :=
  match m with
  | Ok a => k a
  | Raise e => Raise e
  end.

Notation "x <- m ;; k" := (bind m (fun x => k))
  (at level 61, m at next level, right associativity).
Notation "' p <- m ;; k" := (bind m (fun p => k))
  (at level 61, p pattern, m at next level, right associativity).

(** ** List helpers standing for numpy and Python sequence operations *)

(** [l[a:b]] for non-negative [a] and [b]: never raises, empty when [b <= a]. *)
Definition slice {A : Type} (l : list A) (a b : nat) : list A :=
  firstn (b - a) (skipn a l).

(** [l[i]] for a non-negative index. *)
Definition index {A : Type} (l : list A) (i : nat) : result A :=
  match nth_error l i with
  | Some x => Ok x
  | None => Raise IndexError
  end.

(** [l[-1]]. *)
Definition index_last {A : Type} (l : list A) : result A :=
  match rev l with
  | x :: _ => Ok x
  | [] => Raise IndexError
  end.

(** [l[i] = v] on an array of fixed length; the loops below only write inside
    the array, outside it the list is left as it is. *)
Fixpoint update {A : Type} (l : list A) (i : nat) (v : A) : list A :=
  match l, i with
  | [], _ => []
  | _ :: t, O => v :: t
  | h :: t, S j => h :: update t j v
  end.

Fixpoint map2 {A B C : Type} (f : A -> B -> C) (l : list A) (m : list B) : list C :=
  match l, m with
  | a :: l', b :: m' => f a b :: map2 f l' m'
  | _, _ => []
  end.

(** An elementwise binary operation on two one-dimensional arrays, with numpy's
    broadcasting: equal lengths, or one operand of length 1 stretched to the
    other; any other pair of shapes raises [ValueError]. *)
Definition np_binop (f : R -> R -> R) (a b : list R) : result (list R) :=
  if Nat.eqb (length a) (length b) then Ok (map2 f a b)
  else match a, b with
       | [x], _ => Ok (map (f x) b)
       | _, [y] => Ok (map (fun x => f x y) a)
       | _, _ => Raise ValueError
       end.

(** ** scipy.signal.lfilter

    Direct-form IIR filter along a one-dimensional input:
    [a[0]*y[n] = b[0]*x[n] + b[1]*x[n-1] + ... - a[1]*y[n-1] - ...].
    [xh] and [yh] hold the earlier inputs and outputs, most recent first. *)
Module Signal.

Fixpoint dot (c h : list R) : R :=
  match c, h with
  | c0 :: c', h0 :: h' => c0 * h0 + dot c' h'
  | _, _ => 0
  end.

Fixpoint lfilter_from (b a xh yh x : list R) : list R :=
  match x with
  | [] => []
  | xn :: rest =>
      let xh' := xn :: xh in
      let y := (dot b xh' - dot (tl a) yh) / hd 0 a in
      y :: lfilter_from b a xh' (y :: yh) rest
  end.

Definition lfilter (b a x : list R) : list R := lfilter_from b a [] [] x.

End Signal.

(** ** ActorCriticAgent.discount

    [scipy.signal.lfilter([1], [1, -gamma], x[::-1], axis=0)[::-1]] *)
Definition discount (x : list R) (gamma : R) : list R :=
  rev (Signal.lfilter [1] [1; - gamma] (rev x)).

(** The first-order recurrence the filter runs: [y[n] = x[n] + g * y[n-1]]. *)
Fixpoint iir (g yprev : R) (x : list R) : list R :=
  match x with
  | [] => []
  | xn :: rest => let y := xn + g * yprev in y :: iir g y rest
  end.


(** ** Configuration *)

(** Modelled from the spec: the enumeration [PolicyGradientRescaler] of
    [agents/policy_optimization_agent.py], which is not among the sources.  The
    specification names the modes A_VALUE, CUSTOM_ACTOR_CRITIC and GAE; every
    other member falls into the agents' final [else] branch and is one
    constructor here. *)
Inductive PolicyGradientRescaler : Set :=
| A_VALUE
| CUSTOM_ACTOR_CRITIC
| GAE
| OTHER_RESCALER.

(** [self.ap.algorithm] and [self.policy_gradient_rescaler]. *)
Record AlgorithmParameters : Type := {
  ap_discount : R;                         (* algorithm.discount *)
  gae_lambda : R;
  estimate_state_value_using_gae : bool;
  policy_gradient_rescaler : PolicyGradientRescaler
}.

(** ** ActorCriticAgent.get_general_advantage_estimation_values *)
Definition get_general_advantage_estimation_values
    (ap : AlgorithmParameters) (rewards values : list R)
  : result (list R * list R) :=
  vlast <- index_last values ;;
  let bootstrap_extended_rewards := rewards ++ [vlast] in
  scaled <- np_binop Rplus rewards (map (Rmult (ap_discount ap)) (tl values)) ;;
  deltas <- np_binop Rminus scaled (removelast values) ;;
  let gae := discount deltas (ap_discount ap * gae_lambda ap) in
  discounted_returns <-
    (if estimate_state_value_using_gae ap
     then np_binop Rplus gae (removelast values)
     else Ok (removelast (discount bootstrap_extended_rewards (ap_discount ap)))) ;;
  Ok (gae, discounted_returns).

(** ** The standardization of the advantages

    [(advantages - np.mean(advantages)) / np.std(advantages)], line 137 of
    [clipped_ppo_agent.py].  numpy does not raise on a zero divisor: the
    quotient is [nan] when the dividend is zero or [nan], and a signed
    infinity otherwise.  Whether the divisor is zero is decided by float64
    rounding: a constant array may leave a rounding residue in its mean, the
    squares of a non-constant one may underflow.  The step is therefore
    computed on binary64 numbers, the primitive floats (IEEE 754, round to
    nearest even), whose operations are specified in [FloatAxioms]. *)
Definition f64 : Set := PrimFloat.float.

(** The number of entries as a float: the divisor of [np.mean]. *)
Definition f64_of_nat (n : nat) : f64 :=
  PrimFloat.of_uint63 (Uint63.of_Z (Z.of_nat n)).

(** [np.mean(a)] is [np.add.reduce(a) / n].  The order in which [add.reduce]
    adds the entries is numpy's own (pairwise, in blocks, on long arrays) and
    is a parameter here. *)
Definition np_mean (add_reduce : list f64 -> f64) (a : list f64) : f64 :=
  PrimFloat.div (add_reduce a) (f64_of_nat (length a)).

(** [np.std(a)], the population standard deviation: with
    [x = a - np.mean(a)], the square root of [add.reduce(x * x) / n]. *)
Definition np_std (add_reduce : list f64 -> f64) (a : list f64) : f64 :=
  let arrmean := np_mean add_reduce a in
  PrimFloat.sqrt
    (np_mean add_reduce
       (map (fun v => let x := PrimFloat.sub v arrmean in PrimFloat.mul x x) a)).

(** [(a - np.mean(a)) / np.std(a)].  On the empty array the result is the
    empty array again. *)
Definition standardize_f64 (add_reduce : list f64 -> f64) (a : list f64)
  : list f64 :=
  let m := np_mean add_reduce a in
  let s := np_std add_reduce a in
  map (fun v => PrimFloat.div (PrimFloat.sub v m) s) a.

(** Addition from the first entry to the last, which is what [add.reduce]
    does on an array of fewer than eight entries.  On the arrays of the
    examples below every order of addition gives the same float. *)
Definition sum_in_order (a : list f64) : f64 :=
  fold_left PrimFloat.add a PrimFloat.zero.

(** What a float holds: a real number, NaN or a signed infinity. *)
Inductive fval : Type :=
| Finite (r : R)
| NaN
| PosInf
| NegInf.

Definition is_finite (v : fval) : bool :=
  match v with Finite _ => true | _ => false end.

Definition f64_value (x : f64) : fval :=
  match FloatOps.Prim2SF x with
  | SpecFloat.S754_zero _ => Finite 0
  | SpecFloat.S754_infinity false => PosInf
  | SpecFloat.S754_infinity true => NegInf
  | SpecFloat.S754_nan => NaN
  | SpecFloat.S754_finite s m e =>
      Finite ((if s then -1 else 1) * IZR (Zpos m) * powerRZ 2 e)
  end.

(** Sum, [np.mean] of a non-empty array and [np.std] in exact arithmetic. *)
Definition sum (l : list R) : R := fold_right Rplus 0 l.

Definition mean (l : list R) : R := sum l / INR (length l).

Definition std (l : list R) : R :=
  sqrt (mean (map (fun x => (x - mean l) * (x - mean l)) l)).

(** The value head returns one row per state, shape [(n, 1)]; [squeeze] drops
    every axis of length 1, so a single row becomes a zero-dimensional array,
    which cannot be sliced. *)
Inductive ndarray : Type :=
| Arr0 (x : R)
| Arr1 (l : list R).

Definition squeeze (column : list R) : ndarray :=
  match column with
  | [x] => Arr0 x
  | _ => Arr1 column
  end.

Definition nd_slice (a : ndarray) (i j : nat) : result (list R) :=
  match a with
  | Arr0 _ => Raise IndexError
  | Arr1 l => Ok (slice l i j)
  end.

(** [l - a] for a one-dimensional [l]. *)
Definition nd_rsub (l : list R) (a : ndarray) : result (list R) :=
  match a with
  | Arr0 x => Ok (map (fun r => r - x) l)
  | Arr1 m => np_binop Rminus l m
  end.

(** ** The loss bookkeeping of train_network *)

(** What one call of [train_and_sync_networks] returns: the total loss, one
    loss per head (value head, policy head), the norm of the unclipped
    gradients and the two additional fetches (KL divergence, entropy). *)
Record StepResult : Type := {
  step_total_loss : R;
  step_policy_losses : R * R;
  step_unclipped_grads : R;
  step_fetch_result : R * R
}.

(** The dictionary [loss] while the minibatches of an epoch run. *)
Record LossLists : Type := {
  total_loss : list R;
  policy_losses : list (R * R);
  unclipped_grads : list R;
  fetch_result : list (R * R)
}.

Definition empty_loss : LossLists :=
  {| total_loss := []; policy_losses := []; unclipped_grads := []; fetch_result := [] |}.

Definition append_loss (loss : LossLists) (r : StepResult) : LossLists :=
  {| total_loss := total_loss loss ++ [step_total_loss r];
     policy_losses := policy_losses loss ++ [step_policy_losses r];
     unclipped_grads := unclipped_grads loss ++ [step_unclipped_grads r];
     fetch_result := fetch_result loss ++ [step_fetch_result r] |}.

(** [np.mean(rows, 0)]: of no rows it is a zero-dimensional [nan] ([None]),
    otherwise the mean of each column. *)
Definition mean_scalars (rows : list R) : option R :=
  match rows with
  | [] => None
  | _ => Some (mean rows)
  end.

Definition mean_pairs (rows : list (R * R)) : option (R * R) :=
  match rows with
  | [] => None
  | _ => Some (mean (map fst rows), mean (map snd rows))
  end.

(** The dictionary [loss] after [loss[key] = np.mean(loss[key], 0)]. *)
Record LossMeans : Type := {
  mean_total_loss : option R;
  mean_policy_losses : option (R * R);
  mean_unclipped_grads : option R;
  mean_fetch_result : option (R * R)
}.

Definition aggregate (loss : LossLists) : LossMeans :=
  {| mean_total_loss := mean_scalars (total_loss loss);
     mean_policy_losses := mean_pairs (policy_losses loss);
     mean_unclipped_grads := mean_scalars (unclipped_grads loss);
     mean_fetch_result := mean_pairs (fetch_result loss) |}.

(** [m[i]] on an aggregated entry: a zero-dimensional value has no index. *)
Definition index_mean (m : option (R * R)) (i : nat) : result R :=
  match m with
  | None => Raise IndexError
  | Some (a, b) => index [a; b] i
  end.

(** [int(size / batch_size)]: true division, then truncation; on sizes a
    [float64] holds exactly this is the integer quotient. *)
Definition int_div (size batch_size : nat) : result nat :=
  if Nat.eqb batch_size 0 then Raise ZeroDivisionError
  else Ok (size / batch_size)%nat.

(** Repeating a fallible step [n] times. *)
Fixpoint iterate {A : Type} (n : nat) (f : nat -> A -> result A) (j : nat) (a : A)
  : result A :=
  match n with
  | O => Ok a
  | S n' => a' <- f j a ;; iterate n' f (S j) a'
  end.

(** Running a fallible function over a list, left to right; the first
    exception ends the run. *)
Fixpoint mapM {A B : Type} (f : A -> result B) (l : list A) : result (list B) :=
  match l with
  | [] => Ok []
  | x :: rest => y <- f x ;; ys <- mapM f rest ;; Ok (y :: ys)
  end.

(** ** ActorCriticAgent.get_value_for_states

    [np.sum(q_values * probs, axis=1)] for the two predictions, one row per
    state.  The product broadcasts along both axes: the numbers of rows are
    equal or one of them is 1, and so are the lengths of the rows that meet.
    (The arrays are rectangular and have at least one row.) *)
Definition np_binop_rows (f : R -> R -> R) (a b : list (list R))
  : result (list (list R)) :=
  if Nat.eqb (length a) (length b)
  then mapM (fun '(x, y) => np_binop f x y) (combine a b)
  else match a, b with
       | [x], _ => mapM (np_binop f x) b
       | _, [y] => mapM (fun x => np_binop f x y) a
       | _, _ => Raise ValueError
       end.

Definition get_value_for_states (q_values probs : list (list R)) : result (list R) :=
  products <- np_binop_rows Rmult q_values probs ;;
  Ok (map sum products).

(** ** filters/action/attention_discretization.py

    [AttentionDiscretization.get_unfiltered_action_space] up to the assignment
    of [self.target_actions].  Bin counts are natural numbers.  The grid of
    [BoxDiscretization], which is not among the sources, is a parameter:
    [box_target_actions bins] is [discrete_to_box.target_actions] for the bin
    counts [bins]. *)
Module AttentionDiscretization.

(** [num_bins_per_dimension : Union[int, List[int]]] *)
Inductive NumBins : Set :=
| BinsInt (n : nat)
| BinsList (l : list nat).

(** [rows, cols = self.num_bins_per_dimension] *)
Definition unpack2 (l : list nat) : result (nat * nat) :=
  match l with
  | [rows; cols] => Ok (rows, cols)
  | _ => Raise ValueError
  end.

(** [[i * (cols + 1) + j for i in range(rows + 1) if i < rows
                           for j in range(cols + 1) if j < cols]] *)
Definition start_ind (rows cols : nat) : list nat :=
  flat_map (fun i =>
              if Nat.ltb i rows
              then flat_map (fun j => if Nat.ltb j cols
                                      then [(i * (cols + 1) + j)%nat] else [])
                            (seq 0 (cols + 1))
              else [])
           (seq 0 (rows + 1)).

(** [[i + cols + 2 for i in start_ind]] *)
Definition end_ind (rows cols : nat) : list nat :=
  map (fun i => (i + cols + 2)%nat) (start_ind rows cols).

Section Grid.

Context {Point : Type}.
Variable box_target_actions : list nat -> list Point.

(** The new [self.num_bins_per_dimension] and [self.target_actions];
    [dims] is [output_action_space.shape[0]]. *)
Definition get_unfiltered_action_space (num_bins_per_dimension : NumBins) (dims : nat)
  : result (list nat * list (Point * Point)) :=
  let bins := match num_bins_per_dimension with
              | BinsInt n => repeat n dims
              | BinsList l => l
              end in
  let box := box_target_actions (map (fun n => (n + 1)%nat) bins) in
  '(rows, cols) <- unpack2 bins ;;
  target_actions <-
    mapM (fun '(start, end_) =>
            low_corner <- index box start ;;
            high_corner <- index box end_ ;;
            Ok (low_corner, high_corner))
         (combine (start_ind rows cols) (end_ind rows cols)) ;;
  Ok (bins, target_actions).

End Grid.

End AttentionDiscretization.

(** Modelled from the spec: the ways in which [Batch.total_returns()] of
    [core_types.py] may fail when the returns were not precomputed: it returns
    an empty array, it returns the undefined value [None], or it raises. *)
Inductive MissingReturns : Set :=
| ReturnsEmpty
| ReturnsUndefined
| RaisesError (e : exn).

Section Agents.

(** States are opaque.  The networks are collaborators: [value_head s] is
    output 0 of [networks['main'].online_network.predict] for the state [s],
    [critic_value s] is what [get_value_for_states] computes for it.  Both act
    row by row. *)
Context {State : Type}.
Variable value_head : State -> R.
Variable critic_value : State -> R.

(** The float64 side of the standardization: [add_reduce] is numpy's
    [np.add.reduce] on a one-dimensional float64 array, and [to_float x] is
    the float64 number the array [advantages] holds where the embedding, which
    reads the estimators in exact arithmetic, has the real [x]. *)
Variable add_reduce : list f64 -> f64.
Variable to_float : R -> f64.

(** Modelled from the spec: the classes [Transition] and [Batch] of
    [core_types.py], which is not among the sources.  A transition has a state,
    a reward, a next state, a [game_over] flag, a total return, which is there
    only once it has been precomputed, and a mutable [info] mapping; of the
    mapping only the two keys [fill_advantages] stores are kept.  The action is
    only passed on to the network and is left out. *)
Record Info : Type := {
  advantage : option fval;
  gae_based_value_target : option R
}.

Record Transition : Type := {
  state : State;
  reward : R;
  next_state : State;
  game_over : bool;
  total_return : option R;
  info : Info
}.

(** Modelled from the spec: a batch is an ordered view over its transitions
    and every accessor returns one entry per transition, in order. *)
Definition Batch : Type := list Transition.

Definition states (batch : Batch) : list State := map state batch.
Definition next_states (batch : Batch) : list State := map next_state batch.
Definition rewards (batch : Batch) : list R := map reward batch.
Definition game_overs (batch : Batch) : list bool := map game_over batch.

(** The precomputed returns of the batch, if every transition has one. *)
Fixpoint precomputed_returns (batch : Batch) : option (list R) :=
  match batch with
  | [] => Some []
  | t :: rest =>
      match total_return t, precomputed_returns rest with
      | Some r, Some rs => Some (r :: rs)
      | _, _ => None
      end
  end.

(** Modelled from the spec: [total_returns()] needs a precomputed return for
    each transition and fails (returns empty/undefined) if there is none.  The
    specification leaves the manner of failing open; [missing_returns] says
    which of its readings holds. *)
Variable missing_returns : MissingReturns.

(** What the call [batch.total_returns()] evaluates to: an array
    ([Ok (Some a)]), the value [None] ([Ok None]) or an exception. *)
Definition total_returns (batch : Batch) : result (option (list R)) :=
  match precomputed_returns batch with
  | Some returns => Ok (Some returns)
  | None =>
      match missing_returns with
      | ReturnsEmpty => Ok (Some [])
      | ReturnsUndefined => Ok None
      | RaisesError e => Raise e
      end
  end.

(** *** ActorCriticAgent.learn_from_batch: the targets handed to the network *)

(** [for i in reversed(range(num_transitions))] of the A_VALUE and
    CUSTOM_ACTOR_CRITIC branches. *)
Definition returns_step (gamma : R) (rewards_ current_state_values : list R)
    (acc : R * list R * list R) (i : nat) : R * list R * list R :=
  let '(R_, state_value_head_targets, action_advantages) := acc in
  let R' := nth i rewards_ 0 + gamma * R_ in
  (R', update state_value_head_targets i R',
       update action_advantages i (R' - nth i current_state_values 0)).

Definition returns_loop (gamma : R) (rewards_ current_state_values : list R)
    (num_transitions : nat) (R0 : R) : list R * list R :=
  let '(_, state_value_head_targets, action_advantages) :=
    fold_left (returns_step gamma rewards_ current_state_values)
              (rev (seq 0 num_transitions))
              (R0, repeat 0 num_transitions, repeat 0 num_transitions) in
  (state_value_head_targets, action_advantages).

(** The pair [(state_value_head_targets, action_advantages)] passed to
    [accumulate_gradients]. *)
Definition learn_from_batch (ap : AlgorithmParameters) (batch : Batch)
  : result (list R * list R) :=
  let current_state_values :=
    match policy_gradient_rescaler ap with
    | CUSTOM_ACTOR_CRITIC => map critic_value (states batch)
    | _ => map value_head (states batch)
    end in
  let num_transitions := length batch in
  match policy_gradient_rescaler ap with
  | A_VALUE =>
      last_game_over <- index_last (game_overs batch) ;;
      R0 <- (if last_game_over : bool then Ok 0
             else s <- index_last (next_states batch) ;; Ok (value_head s)) ;;
      Ok (returns_loop (ap_discount ap) (rewards batch) current_state_values
                       num_transitions R0)
  | CUSTOM_ACTOR_CRITIC =>
      last_game_over <- index_last (game_overs batch) ;;
      R0 <- (if last_game_over : bool then Ok 0
             else s <- index_last (next_states batch) ;; Ok (critic_value s)) ;;
      Ok (returns_loop (ap_discount ap) (rewards batch) current_state_values
                       num_transitions R0)
  | GAE =>
      s <- index_last (next_states batch) ;;
      let bootstrapped_value := value_head s in
      let values := current_state_values ++ [bootstrapped_value] in
      last_game_over <- index_last (game_overs batch) ;;
      let values := if last_game_over : bool
                    then update values (length values - 1) 0 else values in
      '(gae_values, state_value_head_targets) <-
        get_general_advantage_estimation_values ap (rewards batch) values ;;
      Ok (state_value_head_targets, gae_values)
  | OTHER_RESCALER =>
      Ok (repeat 0 num_transitions, repeat 0 num_transitions)
  end.

(** *** ClippedPPOAgent.fill_advantages *)

(** The body of [for idx, game_over in enumerate(batch.game_overs())]. *)
Definition rollout_step (ap : AlgorithmParameters)
    (current_state_values : ndarray) (rewards_ : list R)
    (acc : nat * list R * list R) (idx : nat) (game_over_ : bool)
  : result (nat * list R * list R) :=
  let '(episode_start_idx, advantages, value_targets) := acc in
  if game_over_ then
    window_values <- nd_slice current_state_values episode_start_idx (idx + 1) ;;
    let rollout_state_values := window_values ++ [0] in
    '(rollout_advantages, gae_based_value_targets) <-
      get_general_advantage_estimation_values ap
        (slice rewards_ episode_start_idx (idx + 1)) rollout_state_values ;;
    Ok ((idx + 1)%nat, advantages ++ rollout_advantages,
        value_targets ++ gae_based_value_targets)
  else Ok acc.

Fixpoint rollout_loop (ap : AlgorithmParameters)
    (current_state_values : ndarray) (rewards_ : list R)
    (flags : list bool) (idx : nat) (acc : nat * list R * list R)
  : result (nat * list R * list R) :=
  match flags with
  | [] => Ok acc
  | game_over_ :: rest =>
      acc' <- rollout_step ap current_state_values rewards_ acc idx game_over_ ;;
      rollout_loop ap current_state_values rewards_ rest (S idx) acc'
  end.

(** The arrays [advantages] and [value_targets] as they stand right before the
    standardization. *)
Definition raw_advantages (ap : AlgorithmParameters) (batch : Batch)
  : result (list R * list R) :=
  let current_state_values := squeeze (map value_head (states batch)) in
  match policy_gradient_rescaler ap with
  | A_VALUE =>
      total_returns_ <- total_returns batch ;;
      advantages <-
        match total_returns_ with
        | Some returns => nd_rsub returns current_state_values
        | None => Raise TypeError       (* None - ndarray *)
        end ;;
      Ok (advantages, [])
  | GAE =>
      '(_, advantages, value_targets) <-
        rollout_loop ap current_state_values (rewards batch) (game_overs batch)
                     0 (0%nat, [], []) ;;
      Ok (advantages, value_targets)
  | _ => Ok ([], [])
  end.

(** [for transition, advantage, value_target in zip(...)]: the shortest of the
    three sequences ends the loop, later transitions keep their info. *)
Definition set_info (t : Transition) (a : fval) (v : R) : Transition :=
  {| state := state t; reward := reward t; next_state := next_state t;
     game_over := game_over t; total_return := total_return t;
     info := {| advantage := Some a; gae_based_value_target := Some v |} |}.

Fixpoint write_info (transitions : Batch) (advantages : list fval)
    (value_targets : list R) : Batch :=
  match transitions, advantages, value_targets with
  | t :: ts, a :: advs, v :: vts => set_info t a v :: write_info ts advs vts
  | _, _, _ => transitions
  end.

(** Line 137 on the array [advantages]: the floats of the array are
    standardized, and the result is read as what each float holds. *)
Definition standardize (advantages : list R) : list fval :=
  map f64_value (standardize_f64 add_reduce (map to_float advantages)).

Definition fill_advantages (ap : AlgorithmParameters) (batch : Batch)
  : result Batch :=
  '(advantages, value_targets) <- raw_advantages ap batch ;;
  Ok (write_info batch (standardize advantages) value_targets).

(** *** ClippedPPOAgent.train_network *)

(** [World] is everything a training call changes besides the batch: the
    weights of the online and target networks and the random generator.
    [shuffle] stands for [batch.shuffle()]; the training step receives the
    slice [start:end] of the batch, from whose transitions every input of
    [train_and_sync_networks] is gathered. *)
Context {World : Type}.
Variable shuffle : World -> Batch -> World * Batch.
Variable train_and_sync_networks : World -> Batch -> World * StepResult.

Hypothesis shuffle_permutes :
  forall w batch, Permutation batch (snd (shuffle w batch)).

(** One gradient step on the transitions [minibatch] and the bookkeeping after
    it; the third component is the local variable [policy_losses]. *)
Definition gradient_step (acc : World * LossLists * option (R * R))
    (minibatch : Batch) : World * LossLists * option (R * R) :=
  let '(w, loss, _) := acc in
  let '(w', r) := train_and_sync_networks w minibatch in
  (w', append_loss loss r, Some (step_policy_losses r)).

(** The body of [for i in range(int(batch.size / batch_size))]. *)
Definition minibatch_step (batch_size : nat) (batch : Batch)
    (acc : World * LossLists * option (R * R)) (i : nat)
  : World * LossLists * option (R * R) :=
  let start := (i * batch_size)%nat in
  let end_ := ((i + 1) * batch_size)%nat in
  gradient_step acc (slice batch start end_).

(** The state carried from one epoch to the next: the world, the batch in its
    current order, the variable [policy_losses] and the variable [loss]
    ([None] while it is still the initial empty list). *)
Definition EpochState : Type :=
  (World * Batch * option (R * R) * option LossMeans)%type.

(** The body of [for j in range(epochs)]. *)
Definition run_epoch (batch_size : nat) (j : nat) (st : EpochState)
  : result EpochState :=
  let '(w, batch, last_policy_losses, _) := st in
  let '(w1, batch1) := shuffle w batch in
  n <- int_div (length batch1) batch_size ;;
  let '(w2, loss, last_policy_losses') :=
    fold_left (minibatch_step batch_size batch1) (seq 0 n)
              (w1, empty_loss, last_policy_losses) in
  let means := aggregate loss in
  (* screen.log_dict: the entries are read in this order *)
  _ <- index_mean (mean_policy_losses means) 0 ;;
  _ <- index_mean (mean_fetch_result means) 0 ;;
  _ <- index_mean (mean_fetch_result means) 1 ;;
  Ok (w2, batch1, last_policy_losses', Some means).

Definition train_network (batch_size : nat) (w : World) (batch : Batch)
    (epochs : nat) : result (World * Batch * (R * R)) :=
  '(w', batch', last_policy_losses, loss) <-
    iterate epochs (run_epoch batch_size) 0 (w, batch, None, None) ;;
  (* loss['fetch_result'] on the initial list *)
  means <- match loss with
           | Some m => Ok m
           | None => Raise TypeError
           end ;;
  _ <- index_mean (mean_fetch_result means) 0 ;;
  _ <- index_mean (mean_fetch_result means) 1 ;;
  _ <- index_mean (mean_fetch_result means) 0 ;;
  policy_losses_ <- match last_policy_losses with
                    | Some p => Ok p
                    | None => Raise NameError
                    end ;;
  Ok (w', batch', policy_losses_).


(** ** Specification-level definitions *)

(** TD residuals as the specification writes them:
    [delta[i] = reward[i] + gamma * V[i+1] - V[i]]. *)
Fixpoint td_residuals (gamma : R) (rewards_ values : list R) : list R :=
  match rewards_, values with
  | r :: rs, v :: ((v' :: _) as vs) => (r + gamma * v' - v) :: td_residuals gamma rs vs
  | _, _ => []
  end.

(** The backward recursion as the specification writes it:
    [R[N] = bootstrap] and [R[i] = reward[i] + gamma * R[i+1]]. *)
Fixpoint bootstrapped_returns (gamma bootstrap : R) (rewards_ : list R) : list R :=
  match rewards_ with
  | [] => []
  | r :: rs =>
      (r + gamma * hd bootstrap (bootstrapped_returns gamma bootstrap rs))
      :: bootstrapped_returns gamma bootstrap rs
  end.

(** An array all of whose entries are equal. *)
Definition constant (l : list R) : Prop :=
  forall i j, (i < length l)%nat -> (j < length l)%nat -> nth i l 0 = nth j l 0.

(** The standardization formula of line 137 read in exact arithmetic. *)
Definition standardize_exact (advantages : list R) : list R :=
  map (fun a => (a - mean advantages) / std advantages) advantages.

(** Every transition of the batch has its precomputed return. *)
Definition returns_precomputed (batch : Batch) : Prop :=
  Forall (fun t => total_return t <> None) batch.

(** Estimation windows as the specification describes them: the maximal
    contiguous runs closed by a [game_over], and the open run after the last
    one. *)
Fixpoint rollouts (batch : Batch) : list Batch * Batch :=
  match batch with
  | [] => ([], [])
  | t :: rest =>
      let '(closed, open_run) := rollouts rest in
      if game_over t then ([t] :: closed, open_run)
      else match closed with
           | w :: ws => ((t :: w) :: ws, open_run)
           | [] => ([], t :: open_run)
           end
  end.

(** A complete episode: non-empty, terminal at its last transition only. *)
Definition complete_episode (episode : Batch) : Prop :=
  exists body final,
    episode = body ++ [final] /\
    game_over final = true /\
    forallb (fun t => negb (game_over t)) body = true.

(** The advantages and value targets of one window with bootstrap value
    [bootstrap]. *)
Definition window_estimates (ap : AlgorithmParameters) (window : Batch)
    (bootstrap : R) : result (list R * list R) :=
  get_general_advantage_estimation_values ap (rewards window)
    (map value_head (states window) ++ [bootstrap]).

(** Every window estimated on its own with bootstrap 0, the results
    concatenated in order. *)
Fixpoint estimate_windows (ap : AlgorithmParameters) (windows : list Batch)
  : result (list R * list R) :=
  match windows with
  | [] => Ok ([], [])
  | w :: ws =>
      '(a, t) <- window_estimates ap w 0 ;;
      '(a', t') <- estimate_windows ap ws ;;
      Ok (a ++ a', t ++ t')
  end.

(** The minibatches of a batch in its current order:
    the [i]-th is [batch[i*M : (i+1)*M]]. *)
Definition minibatches (batch_size : nat) (batch : Batch) : list Batch :=
  map (fun i => slice batch (i * batch_size) ((i + 1) * batch_size))
      (seq 0 (length batch / batch_size)).

(** Two batches that differ at most in the [game_over] flags before the last
    transition. *)
Definition same_but_interior_flags (b1 b2 : Batch) : Prop :=
  states b1 = states b2 /\
  rewards b1 = rewards b2 /\
  next_states b1 = next_states b2 /\
  index_last (game_overs b1) = index_last (game_overs b2).

(** * Properties *)

(** ** The discounting engine *)

Lemma lfilter_from_iir (g : R) (x xh yh : list R) :
  Signal.lfilter_from [1] [1; - g] xh yh x = iir g (hd 0 yh) x.
Proof.
  revert xh yh; induction x as [|xn rest IH]; intros xh yh; [reflexivity|].
  cbn [Signal.lfilter_from iir].
  assert (E : (Signal.dot [1] (xn :: xh) - Signal.dot (tl [1; - g]) yh) / hd 0 [1; - g]
              = xn + g * hd 0 yh).
  { destruct yh as [|y0 yh']; cbn; field. }
  rewrite E, IH. reflexivity.
Qed.

Lemma last_cons_default (A : Type) (l : list A) (y d : A) :
  last (y :: l) d = last l y.
Proof.
  revert y d; induction l as [|z l IH]; intros y d; [reflexivity|].
  change (last (y :: z :: l) d) with (last (z :: l) d).
  now rewrite !IH.
Qed.

Lemma iir_snoc (g y0 a : R) (l : list R) :
  iir g y0 (l ++ [a]) = iir g y0 l ++ [a + g * last (iir g y0 l) y0].
Proof.
  revert y0; induction l as [|b l IH]; intros y0; [reflexivity|].
  cbn [app iir]. rewrite IH. cbn [app].
  now rewrite last_cons_default.
Qed.

Lemma last_hd_rev (A : Type) (l : list A) (d : A) : last l d = hd d (rev l).
Proof.
  destruct (rev l) as [|x r] eqn:E.
  - apply (f_equal (@rev A)) in E. rewrite rev_involutive in E. now subst.
  - apply (f_equal (@rev A)) in E. rewrite rev_involutive in E. subst l.
    cbn. now rewrite last_last.
Qed.

(** The backward recurrence: [y[t] = x[t] + gamma * y[t+1]], zero past the end. *)
Lemma discount_nil (g : R) : discount [] g = [].
Proof. reflexivity. Qed.

Lemma discount_cons (a g : R) (x : list R) :
  discount (a :: x) g = (a + g * hd 0 (discount x g)) :: discount x g.
Proof.
  unfold discount, Signal.lfilter. rewrite !lfilter_from_iir. cbn [rev hd].
  rewrite iir_snoc, rev_app_distr. cbn [rev app]. now rewrite last_hd_rev.
Qed.

Lemma discount_length (x : list R) (g : R) : length (discount x g) = length x.
Proof.
  induction x as [|a x IH]; [reflexivity|].
  rewrite discount_cons. cbn. now rewrite IH.
Qed.

Lemma discount_nth_recurrence (x : list R) (g : R) (t : nat) :
  (t < length x)%nat ->
  nth t (discount x g) 0 = nth t x 0 + g * nth (S t) (discount x g) 0.
Proof.
  revert t; induction x as [|a x IH]; intros t Ht; cbn in Ht; [lia|].
  rewrite discount_cons. destruct t as [|t].
  - cbn [nth]. destruct (discount x g); reflexivity.
  - cbn [nth]. apply IH. lia.
Qed.

Lemma discount_nth_sum (x : list R) (g : R) (t : nat) :
  (t < length x)%nat ->
  nth t (discount x g) 0 =
  sum_f_R0 (fun k => g ^ k * nth (t + k) x 0) (length x - t - 1).
Proof.
  revert t; induction x as [|a x IH]; intros t Ht; cbn in Ht; [lia|].
  rewrite discount_cons. destruct t as [|t].
  - cbn [nth length]. replace (S (length x) - 0 - 1)%nat with (length x) by lia.
    destruct x as [|b x'].
    + cbn. ring.
    + rewrite decomp_sum by (cbn; lia).
      cbn [Nat.add nth pow]. rewrite Rmult_1_l. f_equal.
      replace (hd 0 (discount (b :: x') g)) with (nth 0 (discount (b :: x') g) 0)
        by (destruct (discount (b :: x') g); reflexivity).
      rewrite IH by (cbn; lia).
      rewrite scal_sum.
      replace (Init.Nat.pred (length (b :: x'))) with (length (b :: x') - 0 - 1)%nat
        by (cbn; lia).
      apply sum_eq. intros k _. cbn [Nat.add pow nth]. ring.
  - cbn [nth length]. rewrite IH by lia.
    replace (S (length x) - S t - 1)%nat with (length x - t - 1)%nat by lia.
    apply sum_eq. intros k _. reflexivity.
Qed.

Lemma discount_zeros (g : R) (T : nat) : discount (repeat 0 T) g = repeat 0 T.
Proof.
  induction T as [|T IH]; [reflexivity|].
  cbn [repeat]. rewrite discount_cons, IH. f_equal.
  destruct T; cbn; ring.
Qed.

Lemma discount_gamma_zero (x : list R) : discount x 0 = x.
Proof.
  induction x as [|a x IH]; [reflexivity|].
  rewrite discount_cons, IH. f_equal. ring.
Qed.

Lemma discount_constant (c g : R) (T t : nat) :
  g <> 1 -> (t < T)%nat ->
  nth t (discount (repeat c T) g) 0 = c * (1 - g ^ (T - t)) / (1 - g).
Proof.
  intros Hg. revert t; induction T as [|T IH]; intros t Ht; [lia|].
  cbn [repeat]. rewrite discount_cons. destruct t as [|t].
  - cbn [nth]. replace (S T - 0)%nat with (S T) by lia.
    destruct T as [|T].
    + cbn. field. lra.
    + replace (hd 0 (discount (repeat c (S T)) g))
        with (nth 0 (discount (repeat c (S T)) g) 0)
        by (destruct (discount (repeat c (S T)) g); reflexivity).
      rewrite IH by lia. replace (S T - 0)%nat with (S T) by lia.
      cbn [pow]. field. lra.
  - cbn [nth]. rewrite IH by lia. reflexivity.
Qed.

(** C1. [discount(x, gamma)] keeps the length of [x]; its entry [t] is the sum
    of [gamma^k * x[t+k]] for [k] from 0 to [T-t-1], which is the backward
    recurrence [y[t] = x[t] + gamma * y[t+1]] with [y] zero past the end; a
    zero sequence is mapped to zeros for every [gamma], [gamma = 0] gives the
    identity, and on a constant sequence [c] the entry [t] is
    [c * (1 - gamma^(T-t)) / (1 - gamma)] when [gamma] is not 1. *)
Theorem discount_spec (x : list R) (gamma : R) :
  length (discount x gamma) = length x /\
  (forall t, (t < length x)%nat ->
     nth t (discount x gamma) 0 =
     sum_f_R0 (fun k => gamma ^ k * nth (t + k) x 0) (length x - t - 1)) /\
  (forall t, (t < length x)%nat ->
     nth t (discount x gamma) 0 =
     nth t x 0 + gamma * nth (S t) (discount x gamma) 0) /\
  (forall T, discount (repeat 0 T) gamma = repeat 0 T) /\
  discount x 0 = x /\
  (forall c T t, gamma <> 1 -> (t < T)%nat ->
     nth t (discount (repeat c T) gamma) 0 =
     c * (1 - gamma ^ (T - t)) / (1 - gamma)).
Proof.
  repeat split.
  - apply discount_length.
  - apply discount_nth_sum.
  - apply discount_nth_recurrence.
  - apply discount_zeros.
  - apply discount_gamma_zero.
  - intros c T t. apply discount_constant.
Qed.

(** ** Generalized advantage estimation *)

Lemma map2_length (A B C : Type) (f : A -> B -> C) (l : list A) (m : list B) :
  length l = length m -> length (map2 f l m) = length l.
Proof.
  revert m; induction l as [|a l IH]; intros [|b m] H; cbn in *; try lia.
  now rewrite IH by lia.
Qed.

Lemma map2_nth (f : R -> R -> R) (l m : list R) (i : nat) :
  length l = length m -> (i < length l)%nat ->
  nth i (map2 f l m) 0 = f (nth i l 0) (nth i m 0).
Proof.
  revert m i; induction l as [|a l IH]; intros [|b m] i H Hi; cbn in *; try lia.
  destruct i as [|i]; [reflexivity|]. apply IH; lia.
Qed.

Lemma np_binop_same_length (f : R -> R -> R) (a b : list R) :
  length a = length b -> np_binop f a b = Ok (map2 f a b).
Proof.
  intros H. unfold np_binop. now rewrite (proj2 (Nat.eqb_eq _ _) H).
Qed.

Lemma index_last_snoc (A : Type) (l : list A) (x : A) : index_last (l ++ [x]) = Ok x.
Proof. unfold index_last. now rewrite rev_app_distr. Qed.

Lemma index_last_nonempty (A : Type) (l : list A) (d : A) :
  l <> [] -> index_last l = Ok (last l d).
Proof.
  intros H. rewrite (app_removelast_last d H) at 1. apply index_last_snoc.
Qed.

Lemma length_removelast (A : Type) (l : list A) :
  length (removelast l) = (length l - 1)%nat.
Proof.
  rewrite removelast_firstn_len, length_firstn. lia.
Qed.

Lemma removelast_cons (A : Type) (a : A) (l : list A) :
  l <> [] -> removelast (a :: l) = a :: removelast l.
Proof. destruct l; [congruence | reflexivity]. Qed.

Lemma last_nth (l : list R) (n : nat) :
  length l = S n -> last l 0 = nth n l 0.
Proof.
  revert n; induction l as [|a l IH]; intros n H; cbn in H; [lia|].
  destruct l as [|b l]; cbn in H.
  - assert (n = 0)%nat by lia. now subst.
  - destruct n as [|n]; [lia|].
    change (last (a :: b :: l) 0) with (last (b :: l) 0).
    cbn [nth]. apply IH. cbn. lia.
Qed.

Lemma nth_removelast (l : list R) (i : nat) :
  (S i < length l)%nat -> nth i (removelast l) 0 = nth i l 0.
Proof.
  revert i; induction l as [|a l IH]; intros i H; cbn in H; [lia|].
  destruct l as [|b l]; cbn in H; [lia|].
  rewrite removelast_cons by discriminate.
  destruct i as [|i]; [reflexivity|]. cbn [nth]. apply IH. cbn. lia.
Qed.

Lemma hd_nth (l : list R) : hd 0 l = nth 0 l 0.
Proof. destruct l; reflexivity. Qed.

(** The array expression for [deltas] computes the TD residuals. *)
Lemma deltas_td_residuals (g : R) (rewards_ values : list R) :
  length values = S (length rewards_) ->
  map2 Rminus (map2 Rplus rewards_ (map (Rmult g) (tl values))) (removelast values)
  = td_residuals g rewards_ values.
Proof.
  revert values; induction rewards_ as [|r rs IH]; intros values H.
  - destruct values as [|v [|v' vs]]; cbn in *; try lia; reflexivity.
  - destruct values as [|v [|v' vs]]; cbn in H; try lia.
    specialize (IH (v' :: vs)). cbn [tl] in IH |- *.
    rewrite removelast_cons by discriminate.
    cbn [map map2 td_residuals]. f_equal.
    destruct rs as [|r' rs'].
    + destruct vs; cbn in H; [reflexivity | lia].
    + rewrite <- IH by (cbn in *; lia).
      destruct vs as [|v'' vs]; cbn in H; [lia|]. reflexivity.
Qed.

Lemma td_residuals_length (g : R) (rewards_ values : list R) :
  length values = S (length rewards_) ->
  length (td_residuals g rewards_ values) = length rewards_.
Proof.
  revert values; induction rewards_ as [|r rs IH]; intros values H.
  - destruct values as [|v [|v' vs]]; reflexivity.
  - destruct values as [|v [|v' vs]]; cbn in H; try lia.
    cbn [td_residuals length]. f_equal. apply IH. cbn. lia.
Qed.

Lemma td_residuals_nth (g : R) (rewards_ values : list R) (i : nat) :
  length values = S (length rewards_) -> (i < length rewards_)%nat ->
  nth i (td_residuals g rewards_ values) 0 =
  nth i rewards_ 0 + g * nth (S i) values 0 - nth i values 0.
Proof.
  revert values i; induction rewards_ as [|r rs IH]; intros values i H Hi;
    cbn in Hi; [lia|].
  destruct values as [|v [|v' vs]]; cbn in H; try lia.
  cbn [td_residuals]. destruct i as [|i]; [reflexivity|].
  cbn [nth]. rewrite IH by (cbn; lia). reflexivity.
Qed.

(** Under the shape contract of the source comment ([values] has one element
    more than [rewards]) the function returns, and returns these arrays. *)
Lemma get_gae_ok (ap : AlgorithmParameters) (rewards_ values : list R) :
  length values = S (length rewards_) ->
  get_general_advantage_estimation_values ap rewards_ values =
  Ok (discount (td_residuals (ap_discount ap) rewards_ values)
               (ap_discount ap * gae_lambda ap),
      if estimate_state_value_using_gae ap
      then map2 Rplus (discount (td_residuals (ap_discount ap) rewards_ values)
                                (ap_discount ap * gae_lambda ap))
                      (removelast values)
      else removelast (discount (rewards_ ++ [last values 0]) (ap_discount ap))).
Proof.
  intros H. unfold get_general_advantage_estimation_values.
  assert (Hne : values <> []) by (destruct values; [cbn in H; lia | discriminate]).
  rewrite (index_last_nonempty _ _ 0 Hne). cbn [bind].
  assert (L1 : length rewards_ = length (map (Rmult (ap_discount ap)) (tl values))).
  { rewrite length_map, length_tl. lia. }
  rewrite (np_binop_same_length _ _ _ L1). cbn [bind].
  assert (L2 : length (map2 Rplus rewards_ (map (Rmult (ap_discount ap)) (tl values)))
               = length (removelast values)).
  { rewrite map2_length by exact L1. rewrite length_removelast. lia. }
  rewrite (np_binop_same_length _ _ _ L2). cbn [bind].
  rewrite deltas_td_residuals by exact H.
  destruct (estimate_state_value_using_gae ap); [|reflexivity].
  rewrite np_binop_same_length; [reflexivity|].
  rewrite discount_length, td_residuals_length, length_removelast by exact H. lia.
Qed.

(** C2. For rewards of length [N] and a value array of length [N+1],
    [get_general_advantage_estimation_values] computes the TD residuals
    [delta[i] = reward[i] + gamma * V[i+1] - V[i]] and returns
    [advantage = discount(delta, gamma * lambda)]; the targets are
    [advantage[i] + V[i]] when [estimate_state_value_using_gae] is set, and
    [discount(rewards ++ [V[N]], gamma)[i]] otherwise.  For gamma = 0.99,
    lambda = 0.95, rewards [2,3] and V = [1,1,0] the advantages are
    [3.871, 2.0]. *)
Theorem gae_spec (ap : AlgorithmParameters) (rewards_ values : list R) :
  length values = S (length rewards_) ->
  exists deltas advantage target,
    get_general_advantage_estimation_values ap rewards_ values
      = Ok (advantage, target) /\
    length deltas = length rewards_ /\
    (forall i, (i < length rewards_)%nat ->
       nth i deltas 0 =
       nth i rewards_ 0 + ap_discount ap * nth (S i) values 0 - nth i values 0) /\
    advantage = discount deltas (ap_discount ap * gae_lambda ap) /\
    length target = length rewards_ /\
    (forall i, (i < length rewards_)%nat ->
       nth i target 0 =
       if estimate_state_value_using_gae ap
       then nth i advantage 0 + nth i values 0
       else nth i (discount (rewards_ ++ [nth (length rewards_) values 0])
                            (ap_discount ap)) 0) /\
    (ap_discount ap = 99 / 100 -> gae_lambda ap = 95 / 100 ->
     rewards_ = [2; 3] -> values = [1; 1; 0] ->
     advantage = [199 / 100 + 9405 / 10000 * 2; 2] /\
     advantage = [3871 / 1000; 2]).
Proof.
  intros H.
  exists (td_residuals (ap_discount ap) rewards_ values).
  eexists. eexists. split; [apply get_gae_ok; exact H|].
  assert (Ld := td_residuals_length (ap_discount ap) rewards_ values H).
  split; [exact Ld|].
  split; [intros i Hi; apply td_residuals_nth; assumption|].
  split; [reflexivity|].
  split.
  { destruct (estimate_state_value_using_gae ap).
    - rewrite map2_length; rewrite discount_length, ?length_removelast; lia.
    - rewrite length_removelast, discount_length, length_app. cbn. lia. }
  split.
  { intros i Hi. destruct (estimate_state_value_using_gae ap).
    - rewrite map2_nth.
      + now rewrite nth_removelast by lia.
      + rewrite discount_length, length_removelast. lia.
      + rewrite discount_length. lia.
    - rewrite nth_removelast.
      + now rewrite (last_nth values _ H).
      + rewrite discount_length, length_app. cbn. lia. }
  intros Hg Hl -> ->. rewrite Hg, Hl. cbn [td_residuals].
  rewrite !discount_cons, discount_nil. cbn [hd].
  split; f_equal; try lra; f_equal; lra.
Qed.

(** With [lambda = 1] the residuals telescope: advantage plus value is the
    bootstrapped discounted return. *)
Lemma gae_lambda_one (g : R) (rewards_ values : list R) :
  length values = S (length rewards_) ->
  map2 Rplus (discount (td_residuals g rewards_ values) (g * 1)) (removelast values)
  = removelast (discount (rewards_ ++ [last values 0]) g).
Proof.
  revert values; induction rewards_ as [|r rs IH]; intros values H.
  - destruct values as [|v [|v' vs]]; cbn in H; try lia.
    cbn [td_residuals app last]. now rewrite discount_nil, discount_cons, discount_nil.
  - destruct values as [|v [|v' vs]]; cbn in H; try lia.
    assert (H' : length (v' :: vs) = S (length rs)) by (cbn; lia).
    specialize (IH (v' :: vs) H').
    change (last (v :: v' :: vs) 0) with (last (v' :: vs) 0).
    cbn [td_residuals app]. rewrite !discount_cons.
    rewrite (removelast_cons _ v (v' :: vs)) by discriminate.
    assert (HE : discount (rs ++ [last (v' :: vs) 0]) g <> []).
    { intro HE. apply (f_equal (@length R)) in HE.
      rewrite discount_length, length_app in HE. cbn in HE. lia. }
    rewrite (removelast_cons _ _ _ HE). cbn [map2]. rewrite IH. f_equal.
    destruct rs as [|r' rs'].
    + destruct vs; cbn in H'; try lia.
      cbn [td_residuals app last]. rewrite discount_nil, discount_cons, discount_nil.
      cbn [hd]. ring.
    + destruct vs as [|v'' vs]; cbn in H'; try lia.
      remember (last (v' :: v'' :: vs) 0) as b.
      cbn [td_residuals app] in IH |- *.
      rewrite discount_cons in IH. rewrite (discount_cons r') in IH.
      rewrite (removelast_cons _ v' (v'' :: vs)) in IH by discriminate.
      rewrite (removelast_cons _ _ (discount (rs' ++ [b]) g)) in IH.
      * cbn [map2] in IH. injection IH as Hhd _.
        rewrite discount_cons, (discount_cons r'). cbn [hd]. rewrite <- Hhd. ring.
      * intro HE'. apply (f_equal (@length R)) in HE'.
        rewrite discount_length, length_app in HE'. cbn in HE'. lia.
Qed.

(** C8. With [gae_lambda = 1] and [estimate_state_value_using_gae] off, the
    returned target is the plain bootstrapped discounted return
    [discount(rewards ++ [V[N]], gamma)[i]], and it coincides with the
    GAE-based target [advantage[i] + V[i]]. *)
Theorem gae_lambda_one_plain_return
    (ap : AlgorithmParameters) (rewards_ values : list R) :
  length values = S (length rewards_) ->
  gae_lambda ap = 1 ->
  estimate_state_value_using_gae ap = false ->
  exists advantage target,
    get_general_advantage_estimation_values ap rewards_ values
      = Ok (advantage, target) /\
    length target = length rewards_ /\
    forall i, (i < length rewards_)%nat ->
      nth i target 0 =
        nth i (discount (rewards_ ++ [nth (length rewards_) values 0])
                        (ap_discount ap)) 0 /\
      nth i target 0 = nth i advantage 0 + nth i values 0.
Proof.
  intros H Hl Hf. eexists. eexists.
  split; [apply get_gae_ok; exact H|]. rewrite Hf, Hl.
  split.
  { rewrite length_removelast, discount_length, length_app. cbn. lia. }
  intros i Hi. split.
  - rewrite nth_removelast.
    + now rewrite (last_nth values _ H).
    + rewrite discount_length, length_app. cbn. lia.
  - rewrite <- gae_lambda_one by exact H.
    rewrite map2_nth.
    + now rewrite nth_removelast by lia.
    + rewrite discount_length, td_residuals_length, length_removelast by exact H. lia.
    + rewrite discount_length, td_residuals_length by exact H. lia.
Qed.

(** ** The backward pass of learn_from_batch *)

Lemma fold_left_rev (A B : Type) (f : A -> B -> A) (l : list B) (a : A) :
  fold_left f (rev l) a = fold_right (fun b acc => f acc b) a l.
Proof.
  induction l as [|b l IH]; [reflexivity|].
  cbn [rev fold_right]. rewrite fold_left_app. cbn [fold_left]. now rewrite IH.
Qed.

Lemma update_repeat_app (A : Type) (d v : A) (k : nat) (l : list A) :
  update (repeat d (S k) ++ l) k v = repeat d k ++ v :: l.
Proof.
  induction k as [|k IH]; [reflexivity|].
  change (d :: update (repeat d (S k) ++ l) k v = d :: (repeat d k ++ v :: l)).
  now rewrite IH.
Qed.

Lemma skipn_cons_nth (l : list R) (k : nat) :
  (k < length l)%nat -> skipn k l = nth k l 0 :: skipn (S k) l.
Proof.
  revert k; induction l as [|a l IH]; intros k H; cbn in H; [lia|].
  destruct k as [|k]; [reflexivity|].
  cbn [skipn nth]. rewrite IH by lia. reflexivity.
Qed.

Lemma bootstrapped_returns_length (g b : R) (rs : list R) :
  length (bootstrapped_returns g b rs) = length rs.
Proof. induction rs as [|r rs IH]; cbn; [reflexivity | now rewrite IH]. Qed.

(** Invariant of the reversed loop: once the indices [k .. n-1] are done, the
    entries from [k] on hold the returns of the suffix and the others are still
    zero. *)
Lemma returns_fold (g R0 : R) (rewards_ csv : list R) (m k : nat) :
  (k + m = length rewards_)%nat -> length csv = length rewards_ ->
  fold_right (fun i acc => returns_step g rewards_ csv acc i)
             (R0, repeat 0 (length rewards_), repeat 0 (length rewards_))
             (seq k m)
  = (hd R0 (bootstrapped_returns g R0 (skipn k rewards_)),
     repeat 0 k ++ bootstrapped_returns g R0 (skipn k rewards_),
     repeat 0 k ++ map2 Rminus (bootstrapped_returns g R0 (skipn k rewards_))
                               (skipn k csv)).
Proof.
  revert k; induction m as [|m IH]; intros k Hk Hc.
  - assert (k = length rewards_) by lia. subst k.
    rewrite skipn_all. cbn. now rewrite !app_nil_r.
  - cbn [seq fold_right]. rewrite IH by lia.
    unfold returns_step.
    rewrite (skipn_cons_nth rewards_ k) by lia.
    rewrite (skipn_cons_nth csv k) by lia.
    cbn [bootstrapped_returns hd map2].
    now rewrite !update_repeat_app.
Qed.

Lemma returns_loop_spec (g R0 : R) (rewards_ csv : list R) :
  length csv = length rewards_ ->
  returns_loop g rewards_ csv (length rewards_) R0
  = (bootstrapped_returns g R0 rewards_,
     map2 Rminus (bootstrapped_returns g R0 rewards_) csv).
Proof.
  intros Hc. unfold returns_loop. rewrite fold_left_rev.
  rewrite (returns_fold g R0 rewards_ csv (length rewards_) 0) by (lia || assumption).
  reflexivity.
Qed.

Lemma bootstrapped_returns_nth (g b : R) (rs : list R) (i : nat) :
  (i < length rs)%nat ->
  nth i (bootstrapped_returns g b rs) 0 =
  nth i rs 0 + g * (if Nat.eqb (S i) (length rs) then b
                    else nth (S i) (bootstrapped_returns g b rs) 0).
Proof.
  revert i; induction rs as [|r rs IH]; intros i Hi; cbn in Hi; [lia|].
  cbn [bootstrapped_returns length]. destruct i as [|i].
  - cbn [nth]. destruct rs as [|r' rs']; [reflexivity|]. reflexivity.
  - cbn [nth]. rewrite IH by lia.
    change (Nat.eqb (S (S i)) (S (length rs))) with (Nat.eqb (S i) (length rs)).
    reflexivity.
Qed.

(** Both branches with a backward pass read the last flag, pick the bootstrap
    and run the loop over the whole batch. *)
Ltac backward_pass Hm :=
  unfold learn_from_batch; rewrite Hm;
  unfold game_overs, next_states; rewrite !map_app; cbn [map];
  rewrite !index_last_snoc; cbn [bind];
  match goal with
  | |- context [length (?b ++ [?f])] =>
      replace (length (b ++ [f])) with (length (rewards (b ++ [f])))
        by (unfold rewards; now rewrite length_map)
  end;
  match goal with
  | |- context [game_over ?f] =>
      destruct (game_over f); cbn [bind];
      (rewrite returns_loop_spec;
       [reflexivity | unfold rewards, states; now rewrite !length_map])
  end.

(** The A_VALUE branch on a batch whose last transition is [final]. *)
Lemma a_value_ok (ap : AlgorithmParameters) (body : Batch) (final : Transition) :
  policy_gradient_rescaler ap = A_VALUE ->
  learn_from_batch ap (body ++ [final]) =
  let R0 := if game_over final then 0 else value_head (next_state final) in
  Ok (bootstrapped_returns (ap_discount ap) R0 (rewards (body ++ [final])),
      map2 Rminus (bootstrapped_returns (ap_discount ap) R0 (rewards (body ++ [final])))
                  (map value_head (states (body ++ [final])))).
Proof. intros Hm. backward_pass Hm. Qed.

Lemma custom_actor_critic_ok
    (ap : AlgorithmParameters) (body : Batch) (final : Transition) :
  policy_gradient_rescaler ap = CUSTOM_ACTOR_CRITIC ->
  learn_from_batch ap (body ++ [final]) =
  let R0 := if game_over final then 0 else critic_value (next_state final) in
  Ok (bootstrapped_returns (ap_discount ap) R0 (rewards (body ++ [final])),
      map2 Rminus (bootstrapped_returns (ap_discount ap) R0 (rewards (body ++ [final])))
                  (map critic_value (states (body ++ [final])))).
Proof. intros Hm. backward_pass Hm. Qed.

(** C3. In A_VALUE mode the bootstrap is 0 when the last transition is
    terminal and the predicted value of the state after the last transition
    otherwise; going from [i = N-1] down to 0, [R = reward[i] + gamma * R],
    [target[i] = R] and [advantage[i] = R - V[i]].  For rewards [1,1,1],
    gamma = 0.9, a terminal last transition and predicted values 0 the
    targets are [2.71, 1.9, 1] and the advantages are the same. *)
Theorem a_value_backward_recursion
    (ap : AlgorithmParameters) (body : Batch) (final : Transition) :
  policy_gradient_rescaler ap = A_VALUE ->
  let batch := body ++ [final] in
  let N := length batch in
  let V := map value_head (states batch) in
  let bootstrap := if game_over final then 0 else value_head (next_state final) in
  exists target advantage_,
    learn_from_batch ap batch = Ok (target, advantage_) /\
    length target = N /\ length advantage_ = N /\
    (forall i, (i < N)%nat ->
       nth i target 0 =
         nth i (rewards batch) 0 +
         ap_discount ap * (if Nat.eqb (S i) N then bootstrap else nth (S i) target 0) /\
       nth i advantage_ 0 = nth i target 0 - nth i V 0) /\
    (rewards batch = [1; 1; 1] -> ap_discount ap = 9 / 10 ->
     game_over final = true -> V = [0; 0; 0] ->
     target = [271 / 100; 19 / 10; 1] /\ advantage_ = [271 / 100; 19 / 10; 1]).
Proof.
  intros Hm batch N V bootstrap.
  eexists. eexists. split; [apply a_value_ok; exact Hm|].
  fold batch. fold bootstrap. fold V.
  assert (LR : length (rewards batch) = N) by (unfold rewards; now rewrite length_map).
  assert (LV : length V = N) by (unfold V, states; now rewrite !length_map).
  split; [now rewrite bootstrapped_returns_length|].
  split; [rewrite map2_length; rewrite bootstrapped_returns_length; lia|].
  split.
  - intros i Hi. split.
    + rewrite bootstrapped_returns_nth by lia. now rewrite LR.
    + rewrite map2_nth; rewrite ?bootstrapped_returns_length; try lia. reflexivity.
  - intros Hr Hg Hgo HV. unfold bootstrap. rewrite Hr, Hg, Hgo, HV.
    cbn [bootstrapped_returns hd map2].
    split; repeat (f_equal; try lra).
Qed.

Lemma update_last (A : Type) (l : list A) (x v : A) :
  update (l ++ [x]) (length (l ++ [x]) - 1) v = l ++ [v].
Proof.
  rewrite length_app. cbn [length]. replace (length l + 1 - 1)%nat with (length l) by lia.
  induction l as [|a l IH]; [reflexivity|]. cbn. now rewrite IH.
Qed.

Lemma window_estimates_ok (ap : AlgorithmParameters) (window : Batch) (bootstrap : R) :
  exists advantage_ target,
    window_estimates ap window bootstrap = Ok (advantage_, target) /\
    length advantage_ = length window /\ length target = length window.
Proof.
  assert (H : length (map value_head (states window) ++ [bootstrap])
              = S (length (rewards window))).
  { unfold states, rewards. rewrite length_app, !length_map. cbn. lia. }
  eexists. eexists. split; [unfold window_estimates; apply get_gae_ok; exact H|].
  assert (LR : length (rewards window) = length window)
    by (unfold rewards; now rewrite length_map).
  split.
  - now rewrite discount_length, td_residuals_length by exact H.
  - destruct (estimate_state_value_using_gae ap).
    + rewrite map2_length;
        rewrite discount_length, td_residuals_length, ?length_removelast by exact H; lia.
    + rewrite length_removelast, discount_length, length_app. cbn. lia.
Qed.

Lemma gae_branch_ok (ap : AlgorithmParameters) (body : Batch) (final : Transition) :
  policy_gradient_rescaler ap = GAE ->
  exists advantage_ target,
    window_estimates ap (body ++ [final])
      (if game_over final then 0 else value_head (next_state final))
      = Ok (advantage_, target) /\
    learn_from_batch ap (body ++ [final]) = Ok (target, advantage_).
Proof.
  intros Hm.
  destruct (window_estimates_ok ap (body ++ [final])
              (if game_over final then 0 else value_head (next_state final)))
    as (a & t & E & _).
  exists a, t. split; [exact E|].
  unfold learn_from_batch. rewrite Hm.
  unfold game_overs, next_states. rewrite !map_app. cbn [map].
  rewrite !index_last_snoc. cbn [bind].
  unfold window_estimates in E.
  destruct (game_over final).
  - rewrite update_last, E. reflexivity.
  - rewrite E. reflexivity.
Qed.

(** C10. [learn_from_batch] does no episode splitting: in every rescaler mode
    the whole batch is one estimation window, only the last transition's
    [game_over] flag is read (bootstrap 0 if set, the prediction for the state
    after the last transition otherwise), and two batches that differ only in
    interior flags give the same targets and advantages. *)
Theorem learn_from_batch_single_window (ap : AlgorithmParameters) (b1 b2 : Batch) :
  same_but_interior_flags b1 b2 ->
  learn_from_batch ap b1 = learn_from_batch ap b2 /\
  forall body final, b1 = body ++ [final] ->
    let bootstrap (predict : State -> R) :=
      if game_over final then 0 else predict (next_state final) in
    match policy_gradient_rescaler ap with
    | A_VALUE =>
        learn_from_batch ap b1 =
        Ok (bootstrapped_returns (ap_discount ap) (bootstrap value_head) (rewards b1),
            map2 Rminus
              (bootstrapped_returns (ap_discount ap) (bootstrap value_head) (rewards b1))
              (map value_head (states b1)))
    | CUSTOM_ACTOR_CRITIC =>
        learn_from_batch ap b1 =
        Ok (bootstrapped_returns (ap_discount ap) (bootstrap critic_value) (rewards b1),
            map2 Rminus
              (bootstrapped_returns (ap_discount ap) (bootstrap critic_value) (rewards b1))
              (map critic_value (states b1)))
    | GAE =>
        exists advantage_ target,
          window_estimates ap b1 (bootstrap value_head) = Ok (advantage_, target) /\
          learn_from_batch ap b1 = Ok (target, advantage_)
    | OTHER_RESCALER =>
        learn_from_batch ap b1 = Ok (repeat 0 (length b1), repeat 0 (length b1))
    end.
Proof.
  intros (Hs & Hr & Hn & Hg). split.
  - assert (Hl : length b1 = length b2).
    { apply (f_equal (@length State)) in Hs. unfold states in Hs.
      now rewrite !length_map in Hs. }
    unfold learn_from_batch. now rewrite Hs, Hr, Hn, Hg, Hl.
  - intros body final -> bootstrap.
    destruct (policy_gradient_rescaler ap) eqn:Hm.
    + apply a_value_ok; exact Hm.
    + apply custom_actor_critic_ok; exact Hm.
    + apply gae_branch_ok; exact Hm.
    + unfold learn_from_batch. now rewrite Hm.
Qed.

(** ** Standardization of the advantages *)

Lemma sum_cons (a : R) (l : list R) : sum (a :: l) = a + sum l.
Proof. reflexivity. Qed.

Lemma sum_map_sub (m : R) (l : list R) :
  sum (map (fun a => a - m) l) = sum l - INR (length l) * m.
Proof.
  induction l as [|a l IH]; [cbn; ring|].
  cbn [map length]. rewrite !sum_cons, IH, S_INR. ring.
Qed.

Lemma sum_map_div (f : R -> R) (s : R) (l : list R) :
  sum (map (fun a => f a / s) l) = sum (map f l) / s.
Proof.
  induction l as [|a l IH]; [cbn; unfold Rdiv; ring|].
  cbn [map]. rewrite !sum_cons, IH. unfold Rdiv. ring.
Qed.

Lemma sum_squares_nonneg (m : R) (l : list R) :
  0 <= sum (map (fun x => (x - m) * (x - m)) l).
Proof.
  induction l as [|a l IH]; [cbn; lra|].
  cbn [map]. rewrite sum_cons.
  pose proof (Rle_0_sqr (a - m)) as Hq. unfold Rsqr in Hq. lra.
Qed.

Lemma sum_squares_zero (m : R) (l : list R) :
  sum (map (fun x => (x - m) * (x - m)) l) = 0 -> Forall (fun x => x = m) l.
Proof.
  induction l as [|a l IH]; intros H; [constructor|].
  cbn [map] in H. rewrite sum_cons in H.
  pose proof (sum_squares_nonneg m l) as Hn.
  pose proof (Rle_0_sqr (a - m)) as Hq. unfold Rsqr in Hq.
  constructor; [|apply IH; lra].
  assert (Hz : (a - m) * (a - m) = 0) by lra.
  apply Rmult_integral in Hz. lra.
Qed.

Lemma sum_all_equal (c : R) (l : list R) :
  Forall (fun x => x = c) l -> sum l = INR (length l) * c.
Proof.
  induction 1 as [|a l Ha _ IH]; [cbn; ring|].
  cbn [length]. rewrite sum_cons, IH, S_INR, Ha. ring.
Qed.

Lemma all_equal_constant (c : R) (l : list R) :
  Forall (fun x => x = c) l -> constant l.
Proof.
  intros H i j Hi Hj. rewrite Forall_forall in H.
  rewrite (H (nth i l 0)) by (now apply nth_In).
  now rewrite (H (nth j l 0)) by (now apply nth_In).
Qed.

Lemma constant_all_equal (l : list R) :
  constant l -> Forall (fun x => x = nth 0 l 0) l.
Proof.
  intros H. apply Forall_forall. intros x Hx.
  destruct (In_nth l x 0 Hx) as (i & Hi & <-).
  apply H; lia.
Qed.

Lemma INR_length_pos (A : Type) (l : list A) : l <> [] -> 0 < INR (length l).
Proof.
  intros H. destruct l as [|a l]; [congruence|]. apply lt_0_INR. cbn. lia.
Qed.

Lemma mean_all_equal (c : R) (l : list R) :
  l <> [] -> Forall (fun x => x = c) l -> mean l = c.
Proof.
  intros Hne H. unfold mean. rewrite (sum_all_equal c l H).
  pose proof (INR_length_pos _ l Hne). field. lra.
Qed.

(** A non-constant array has a positive variance. *)
Lemma variance_pos (l : list R) :
  ~ constant l ->
  0 < mean (map (fun x => (x - mean l) * (x - mean l)) l).
Proof.
  intros Hnc.
  assert (Hne : l <> []).
  { intros ->. apply Hnc. intros i j Hi. cbn in Hi. lia. }
  pose proof (INR_length_pos _ l Hne) as Hn.
  unfold mean at 1. rewrite length_map.
  apply Rdiv_lt_0_compat; [|exact Hn].
  pose proof (sum_squares_nonneg (mean l) l) as H0.
  destruct (Req_dec_T (sum (map (fun x => (x - mean l) * (x - mean l)) l)) 0) as [E|E];
    [|lra].
  exfalso. apply Hnc. apply (all_equal_constant (mean l)).
  now apply sum_squares_zero.
Qed.

Lemma standardize_exact_non_constant (l : list R) :
  ~ constant l ->
  length (standardize_exact l) = length l /\
  mean (standardize_exact l) = 0 /\ std (standardize_exact l) = 1.
Proof.
  intros Hnc.
  pose proof (variance_pos l Hnc) as Hv.
  assert (Hne : l <> []).
  { intros ->. apply Hnc. intros i j Hi. cbn in Hi. lia. }
  pose proof (INR_length_pos _ l Hne) as Hn.
  assert (Hs : 0 < std l) by (unfold std; now apply sqrt_lt_R0).
  assert (Hss : std l * std l = mean (map (fun x => (x - mean l) * (x - mean l)) l)).
  { unfold std. apply sqrt_sqrt. lra. }
  assert (Hm : sum l = INR (length l) * mean l) by (unfold mean; field; lra).
  unfold standardize_exact.
  set (m := mean l) in *. set (s := std l) in *.
  unfold mean in Hv, Hss. rewrite length_map in Hv, Hss.
  set (Q := sum (map (fun x => (x - m) * (x - m)) l)) in *.
  set (n := INR (length l)) in *.
  assert (HQ : Q <> 0).
  { intros HQ. rewrite HQ in Hv. unfold Rdiv in Hv. rewrite Rmult_0_l in Hv. lra. }
  assert (Hmean : mean (map (fun a => (a - m) / s) l) = 0).
  { unfold mean. rewrite length_map, (sum_map_div (fun a => a - m)), sum_map_sub, Hm.
    fold n. field. split; lra. }
  split; [|split].
  - now rewrite length_map.
  - exact Hmean.
  - unfold std. rewrite Hmean, map_map. rewrite <- sqrt_1. f_equal.
    unfold mean. rewrite length_map. fold n.
    rewrite (map_ext _ (fun a => (a - m) * (a - m) / (s * s)))
      by (intros a; field; lra).
    rewrite (sum_map_div (fun a => (a - m) * (a - m))). fold Q.
    rewrite Hss. field. split; lra.
Qed.

(** In exact arithmetic a constant array has the standard deviation 0, and
    the formula has no value on it. *)
Lemma std_constant (l : list R) :
  constant l -> l <> [] -> std l = 0.
Proof.
  intros Hc Hne.
  pose proof (constant_all_equal l Hc) as Hall.
  pose proof (mean_all_equal _ l Hne Hall) as Hm.
  rewrite Forall_forall in Hall.
  unfold std. rewrite <- sqrt_0. f_equal. rewrite Hm.
  apply mean_all_equal.
  - destruct l; [congruence | discriminate].
  - apply Forall_forall. intros y Hy. apply in_map_iff in Hy.
    destruct Hy as (x & <- & Hx). rewrite (Hall x Hx). ring.
Qed.

(** A float that compares equal to zero is one of the two zeros. *)
Lemma is_zero_spec (x : f64) :
  PrimFloat.is_zero x = true ->
  exists sign, FloatOps.Prim2SF x = SpecFloat.S754_zero sign.
Proof.
  unfold PrimFloat.is_zero. rewrite FloatAxioms.eqb_spec.
  replace (FloatOps.Prim2SF PrimFloat.zero) with (SpecFloat.S754_zero false)
    by (vm_compute; reflexivity).
  unfold SpecFloat.SFeqb, SpecFloat.SFcompare.
  destruct (FloatOps.Prim2SF x) as [sx|sx| |sx mx ex]; intros H.
  - now exists sx.
  - destruct sx; discriminate.
  - discriminate.
  - destruct sx; discriminate.
Qed.

(** IEEE 754 division by a zero: NaN for [0/0] and for a NaN dividend, a
    signed infinity for every other dividend. *)
Lemma div_by_zero_not_finite (x s : f64) :
  PrimFloat.is_zero s = true ->
  is_finite (f64_value (PrimFloat.div x s)) = false.
Proof.
  intros H. destruct (is_zero_spec s H) as [sign E].
  unfold f64_value. rewrite FloatAxioms.div_spec, E.
  unfold FloatAxioms.SF64div, SpecFloat.SFdiv.
  destruct (FloatOps.Prim2SF x) as [sx|sx| |sx mx ex]; try reflexivity;
    destruct (xorb sx sign); reflexivity.
Qed.

Lemma standardize_f64_length (a : list f64) :
  length (standardize_f64 add_reduce a) = length a.
Proof. unfold standardize_f64. apply length_map. Qed.

Lemma standardize_length (advantages : list R) :
  length (standardize advantages) = length advantages.
Proof. unfold standardize. now rewrite length_map, standardize_f64_length, length_map. Qed.

Lemma standardize_f64_zero_std (a : list f64) :
  PrimFloat.is_zero (np_std add_reduce a) = true ->
  Forall (fun v => is_finite (f64_value v) = false) (standardize_f64 add_reduce a).
Proof.
  intros H. unfold standardize_f64. apply Forall_forall. intros v Hv.
  apply in_map_iff in Hv. destruct Hv as (x & <- & _).
  now apply div_by_zero_not_finite.
Qed.

(** C4, as the code has it.  Read in exact arithmetic, the standardization
    maps every non-constant advantage array to one with mean 0 and population
    standard deviation 1.  The float64 computation has no guard on the
    division: the result has one entry per advantage, and whenever the
    computed standard deviation is zero every entry is NaN or an infinity.
    (A constant array need not have a computed standard deviation of zero, and
    a non-constant one may have it; the instances are with the
    counterexamples below.) *)
Theorem standardize_spec (advantages : list R) (a : list f64) :
  (~ constant advantages ->
   length (standardize_exact advantages) = length advantages /\
   mean (standardize_exact advantages) = 0 /\
   std (standardize_exact advantages) = 1) /\
  length (standardize_f64 add_reduce a) = length a /\
  (PrimFloat.is_zero (np_std add_reduce a) = true ->
   Forall (fun v => is_finite (f64_value v) = false)
          (standardize_f64 add_reduce a)).
Proof.
  split; [apply standardize_exact_non_constant|].
  split; [apply standardize_f64_length | apply standardize_f64_zero_std].
Qed.

(** What [fill_advantages] writes when the computed standard deviation of the
    advantages is zero. *)
Lemma standardize_zero_std (advantages : list R) :
  PrimFloat.is_zero (np_std add_reduce (map to_float advantages)) = true ->
  Forall (fun v => is_finite v = false) (standardize advantages).
Proof.
  intros H. unfold standardize. apply Forall_map.
  now apply standardize_f64_zero_std.
Qed.

(** ** Estimation windows of fill_advantages *)

Lemma slice_middle (A : Type) (l1 l2 l3 : list A) :
  slice (l1 ++ l2 ++ l3) (length l1) (length l1 + length l2) = l2.
Proof.
  unfold slice.
  replace (length l1 + length l2 - length l1)%nat with (length l2) by lia.
  rewrite skipn_app, skipn_all, Nat.sub_diag. cbn [skipn app].
  rewrite firstn_app, firstn_all, Nat.sub_diag. cbn [firstn]. apply app_nil_r.
Qed.

Lemma slice_map_middle (A B : Type) (f : A -> B) (l1 l2 l3 : list A) :
  slice (map f (l1 ++ l2 ++ l3)) (length l1) (length l1 + length l2) = map f l2.
Proof.
  rewrite !map_app.
  rewrite <- (length_map f l1), <- (length_map f l2). apply slice_middle.
Qed.

Lemma rollouts_open (cur : Batch) :
  forallb (fun t => negb (game_over t)) cur = true -> rollouts cur = ([], cur).
Proof.
  induction cur as [|c cur IH]; intros H; [reflexivity|].
  cbn [forallb] in H. apply andb_prop in H. destruct H as [Hc H].
  cbn [rollouts]. rewrite (IH H).
  destruct (game_over c); [discriminate | reflexivity].
Qed.

Lemma rollouts_closed (cur rest : Batch) (x : Transition) :
  forallb (fun t => negb (game_over t)) cur = true ->
  game_over x = true ->
  rollouts (cur ++ x :: rest)
  = ((cur ++ [x]) :: fst (rollouts rest), snd (rollouts rest)).
Proof.
  intros H Hx. induction cur as [|c cur IH].
  - cbn [app rollouts]. rewrite Hx. now destruct (rollouts rest).
  - cbn [forallb] in H. apply andb_prop in H. destruct H as [Hc H].
    cbn [app rollouts]. rewrite (IH H).
    destruct (game_over c); [discriminate | reflexivity].
Qed.

Lemma estimate_windows_ok (ap : AlgorithmParameters) (windows : list Batch) :
  exists advantage_ target,
    estimate_windows ap windows = Ok (advantage_, target) /\
    length advantage_ = length (concat windows) /\
    length target = length (concat windows).
Proof.
  induction windows as [|w ws IH].
  - exists [], []. now cbn.
  - destruct (window_estimates_ok ap w 0) as (a & t & E & La & Lt).
    destruct IH as (a' & t' & E' & La' & Lt').
    exists (a ++ a'), (t ++ t'). cbn [estimate_windows concat].
    rewrite E. cbn [bind]. rewrite E'. cbn [bind].
    rewrite !length_app. repeat split; lia.
Qed.

(** Invariant of the loop over the flags: [pre] holds the closed windows,
    [cur] the run since [episode_start_idx], [rest] what is still to be read. *)
Lemma rollout_loop_windows (ap : AlgorithmParameters) (rest : Batch) :
  forall (pre cur batch : Batch) (adv tg : list R),
    batch = pre ++ cur ++ rest ->
    forallb (fun t => negb (game_over t)) cur = true ->
    exists k,
      rollout_loop ap (Arr1 (map value_head (states batch))) (rewards batch)
                   (game_overs rest) (length pre + length cur) (length pre, adv, tg)
      = '(a, t) <- estimate_windows ap (fst (rollouts (cur ++ rest))) ;;
        Ok (k, adv ++ a, tg ++ t).
Proof.
  induction rest as [|x rest IH]; intros pre cur batch adv tg Hb Hcur.
  - rewrite app_nil_r, (rollouts_open cur Hcur). cbn.
    exists (length pre). now rewrite !app_nil_r.
  - cbn [game_overs map rollout_loop]. unfold rollout_step.
    destruct (game_over x) eqn:Hx.
    + assert (Hb' : batch = pre ++ (cur ++ [x]) ++ rest).
      { subst batch. now rewrite <- !app_assoc. }
      cbn [nd_slice bind].
      replace (length pre + length cur + 1)%nat
        with (length pre + length (cur ++ [x]))%nat
        by (rewrite length_app; cbn; lia).
      assert (S1 : slice (map value_head (states batch)) (length pre)
                         (length pre + length (cur ++ [x]))
                   = map value_head (states (cur ++ [x]))).
      { rewrite Hb'. unfold states. rewrite !map_map. apply slice_map_middle. }
      assert (S2 : slice (rewards batch) (length pre)
                         (length pre + length (cur ++ [x]))
                   = rewards (cur ++ [x])).
      { rewrite Hb'. apply slice_map_middle. }
      rewrite S1, S2.
      fold (window_estimates ap (cur ++ [x]) 0).
      rewrite (rollouts_closed cur rest x Hcur Hx). cbn [fst estimate_windows].
      destruct (window_estimates ap (cur ++ [x]) 0) as [[ra rt]|e]; cbn [bind];
        [|exists 0%nat; reflexivity].
      fold (game_overs rest).
      destruct (IH (pre ++ cur ++ [x]) [] batch (adv ++ ra) (tg ++ rt)) as [k E].
      { subst batch. now rewrite <- !app_assoc. }
      { reflexivity. }
      exists k.
      replace (S (length pre + length cur))
        with (length (pre ++ cur ++ [x]) + length (@nil Transition))%nat
        by (rewrite !length_app; cbn; lia).
      replace (length pre + length (cur ++ [x]))%nat
        with (length (pre ++ cur ++ [x]))
        by (rewrite !length_app; cbn; lia).
      rewrite E. cbn [app].
      destruct (estimate_windows ap (fst (rollouts rest))) as [[a' t']|e];
        cbn [bind]; [|reflexivity].
      now rewrite !app_assoc.
    + cbn [bind].
      destruct (IH pre (cur ++ [x]) batch adv tg) as [k E].
      { subst batch. now rewrite <- !app_assoc. }
      { rewrite forallb_app, Hcur. cbn. now rewrite Hx. }
      exists k.
      replace (S (length pre + length cur))
        with (length pre + length (cur ++ [x]))%nat
        by (rewrite length_app; cbn; lia).
      fold (game_overs rest). rewrite E. now rewrite <- app_assoc.
Qed.

(** In GAE mode the arrays before the standardization are the estimates of
    the closed windows, in order.  A batch of one transition is left out: its
    squeezed value array is zero-dimensional. *)
Lemma raw_advantages_windows (ap : AlgorithmParameters) (batch : Batch) :
  policy_gradient_rescaler ap = GAE ->
  length batch <> 1%nat ->
  raw_advantages ap batch = estimate_windows ap (fst (rollouts batch)).
Proof.
  intros Hm Hl. unfold raw_advantages. rewrite Hm.
  assert (Hsq : squeeze (map value_head (states batch)) = Arr1 (map value_head (states batch))).
  { unfold states. destruct batch as [|t [|t' b]]; cbn in *; [reflexivity | lia | reflexivity]. }
  rewrite Hsq.
  destruct (rollout_loop_windows ap batch [] [] batch [] [] eq_refl eq_refl) as [k E].
  cbn [length Nat.add app] in E. rewrite E.
  destruct (estimate_windows ap (fst (rollouts batch))) as [[a t]|e]; reflexivity.
Qed.

Lemma rollouts_partition (batch : Batch) :
  concat (fst (rollouts batch)) ++ snd (rollouts batch) = batch.
Proof.
  induction batch as [|t rest IH]; [reflexivity|].
  cbn [rollouts]. destruct (rollouts rest) as [closed open_run]. cbn [fst snd] in IH.
  destruct (game_over t).
  - cbn [fst snd concat app]. now rewrite IH.
  - destruct closed as [|w ws]; cbn [fst snd concat app] in *; now rewrite <- IH.
Qed.

Lemma rollouts_complete (batch : Batch) :
  Forall complete_episode (fst (rollouts batch)).
Proof.
  induction batch as [|t rest IH]; [constructor|].
  cbn [rollouts]. destruct (rollouts rest) as [closed open_run]. cbn [fst] in IH.
  destruct (game_over t) eqn:Ht.
  - cbn [fst]. constructor; [|exact IH]. exists [], t. now repeat split.
  - destruct closed as [|w ws]; cbn [fst]; [constructor|].
    inversion IH as [|? ? (body & final & -> & Hf & Hb) Hws]; subst.
    constructor; [|exact Hws].
    exists (t :: body), final. repeat split; [exact Hf|].
    cbn [forallb]. now rewrite Ht, Hb.
Qed.

Lemma rollouts_open_run (batch : Batch) :
  forallb (fun t => negb (game_over t)) (snd (rollouts batch)) = true.
Proof.
  induction batch as [|t rest IH]; [reflexivity|].
  cbn [rollouts]. destruct (rollouts rest) as [closed open_run]. cbn [snd] in IH.
  destruct (game_over t) eqn:Ht; [exact IH|].
  destruct closed as [|w ws]; cbn [snd]; [|exact IH].
  cbn [forallb]. now rewrite Ht, IH.
Qed.

Lemma write_info_length (ts : Batch) (advs : list fval) (tgs : list R) :
  length (write_info ts advs tgs) = length ts.
Proof.
  revert advs tgs; induction ts as [|t ts IH]; intros advs tgs; [reflexivity|].
  destruct advs as [|a advs]; [reflexivity|].
  destruct tgs as [|v tgs]; [reflexivity|].
  cbn [write_info length]. now rewrite IH.
Qed.

Lemma write_info_nth_error (ts : Batch) (advs : list fval) (tgs : list R)
    (i : nat) (t : Transition) :
  length advs = length tgs ->
  nth_error ts i = Some t ->
  nth_error (write_info ts advs tgs) i =
  if Nat.ltb i (length advs)
  then Some (set_info t (nth i advs NaN) (nth i tgs 0))
  else Some t.
Proof.
  revert advs tgs i; induction ts as [|t0 ts IH]; intros advs tgs i HL Hi.
  - destruct i; discriminate.
  - destruct advs as [|a advs]; destruct tgs as [|v tgs]; cbn in HL; try lia.
    + cbn [write_info length]. exact Hi.
    + cbn [write_info length]. destruct i as [|i].
      * cbn in Hi |- *. now injection Hi as ->.
      * cbn [nth_error nth] in Hi |- *.
        change (Nat.ltb (S i) (S (length advs))) with (Nat.ltb i (length advs)).
        apply IH; [lia | exact Hi].
Qed.

Lemma fill_advantages_gae (ap : AlgorithmParameters) (batch : Batch) :
  policy_gradient_rescaler ap = GAE ->
  length batch <> 1%nat ->
  exists adv tg batch',
    raw_advantages ap batch = Ok (adv, tg) /\
    estimate_windows ap (fst (rollouts batch)) = Ok (adv, tg) /\
    length adv = length (concat (fst (rollouts batch))) /\
    length tg = length (concat (fst (rollouts batch))) /\
    fill_advantages ap batch = Ok batch' /\
    length batch' = length batch /\
    forall i t, nth_error batch i = Some t ->
      nth_error batch' i =
      if Nat.ltb i (length (concat (fst (rollouts batch))))
      then Some (set_info t (nth i (standardize adv) NaN) (nth i tg 0))
      else Some t.
Proof.
  intros Hm Hl.
  destruct (estimate_windows_ok ap (fst (rollouts batch))) as (adv & tg & E & La & Lt).
  exists adv, tg, (write_info batch (standardize adv) tg).
  assert (Eraw : raw_advantages ap batch = Ok (adv, tg))
    by (now rewrite raw_advantages_windows).
  repeat split; try assumption.
  - unfold fill_advantages. now rewrite Eraw.
  - apply write_info_length.
  - intros i t Hi. rewrite <- La.
    rewrite <- (standardize_length adv).
    apply write_info_nth_error; [|exact Hi].
    rewrite standardize_length. lia.
Qed.

(** C5, as the code has it.  In GAE mode a window is closed only by a
    [game_over]: the windows are the maximal contiguous runs that end at a
    transition with [game_over = true], they partition the batch up to the last
    such transition, and each of these transitions gets the advantage and the
    value target of its window.  The transitions after the last [game_over]
    belong to no window; nothing is written to them.  (A batch of a single
    transition has a zero-dimensional value array and is not covered.) *)
Theorem fill_advantages_windows (ap : AlgorithmParameters) (batch : Batch) :
  policy_gradient_rescaler ap = GAE ->
  length batch <> 1%nat ->
  let windows := fst (rollouts batch) in
  let open_run := snd (rollouts batch) in
  concat windows ++ open_run = batch /\
  Forall complete_episode windows /\
  forallb (fun t => negb (game_over t)) open_run = true /\
  exists adv tg batch',
    raw_advantages ap batch = Ok (adv, tg) /\
    estimate_windows ap windows = Ok (adv, tg) /\
    length adv = length (concat windows) /\
    length tg = length (concat windows) /\
    fill_advantages ap batch = Ok batch' /\
    length batch' = length batch /\
    forall i t, nth_error batch i = Some t ->
      nth_error batch' i =
      if Nat.ltb i (length (concat windows))
      then Some (set_info t (nth i (standardize adv) NaN) (nth i tg 0))
      else Some t.
Proof.
  intros Hm Hl windows open_run.
  split; [apply rollouts_partition|].
  split; [apply rollouts_complete|].
  split; [apply rollouts_open_run|].
  apply fill_advantages_gae; assumption.
Qed.

(** ** Episode isolation *)

Lemma rollouts_two_episodes (e1 e2 : Batch) :
  complete_episode e1 -> complete_episode e2 ->
  rollouts (e1 ++ e2) = ([e1; e2], []).
Proof.
  intros (b1 & f1 & -> & Hf1 & Hb1) (b2 & f2 & -> & Hf2 & Hb2).
  rewrite <- app_assoc. cbn [app].
  rewrite (rollouts_closed b1 _ f1 Hb1 Hf1).
  rewrite (rollouts_closed b2 [] f2 Hb2 Hf2). reflexivity.
Qed.

Lemma rollouts_one_episode (e : Batch) :
  complete_episode e -> rollouts e = ([e], []).
Proof.
  intros (b & f & -> & Hf & Hb). now rewrite (rollouts_closed b [] f Hb Hf).
Qed.

Lemma map2_app (A B C : Type) (f : A -> B -> C) (l1 l2 : list A) (m1 m2 : list B) :
  length l1 = length m1 ->
  map2 f (l1 ++ l2) (m1 ++ m2) = map2 f l1 m1 ++ map2 f l2 m2.
Proof.
  revert m1; induction l1 as [|a l1 IH]; intros [|b m1] H; cbn in H; try lia.
  - reflexivity.
  - cbn [app map2]. now rewrite IH by lia.
Qed.

Lemma precomputed_returns_length (batch : Batch) (returns : list R) :
  precomputed_returns batch = Some returns -> length returns = length batch.
Proof.
  revert returns; induction batch as [|t batch IH]; intros returns H; cbn in H.
  - now injection H as <-.
  - destruct (total_return t) as [r|]; [|discriminate].
    destruct (precomputed_returns batch) as [rs|]; [|discriminate].
    injection H as <-. cbn [length]. now rewrite (IH rs).
Qed.

Lemma precomputed_returns_app (b1 b2 : Batch) :
  precomputed_returns (b1 ++ b2)
  = match precomputed_returns b1, precomputed_returns b2 with
    | Some r1, Some r2 => Some (r1 ++ r2)
    | _, _ => None
    end.
Proof.
  induction b1 as [|t b1 IH]; cbn [app precomputed_returns].
  - now destruct (precomputed_returns b2).
  - rewrite IH. destruct (total_return t) as [r|]; [|reflexivity].
    destruct (precomputed_returns b1) as [r1|]; [|reflexivity].
    now destruct (precomputed_returns b2).
Qed.

Lemma returns_precomputed_some (batch : Batch) :
  returns_precomputed batch <-> exists returns, precomputed_returns batch = Some returns.
Proof.
  unfold returns_precomputed. induction batch as [|t batch IH].
  - split; [now exists [] | constructor].
  - cbn [precomputed_returns]. split.
    + intros H. inversion H as [|? ? Ht Hb]; subst.
      destruct (proj1 IH Hb) as [rs ->].
      destruct (total_return t) as [r|]; [now exists (r :: rs) | congruence].
    + intros [rs H]. destruct (total_return t) as [r|] eqn:Et; [|discriminate].
      destruct (precomputed_returns batch) as [rs'|]; [|discriminate].
      constructor; [congruence | apply IH; now exists rs'].
Qed.

Lemma returns_precomputed_none (batch : Batch) :
  ~ returns_precomputed batch <-> precomputed_returns batch = None.
Proof.
  rewrite returns_precomputed_some.
  destruct (precomputed_returns batch) as [rs|].
  - split; [intros H; exfalso; apply H; now exists rs | discriminate].
  - split; [reflexivity | intros _ [rs H]; discriminate].
Qed.

(** The A_VALUE branch subtracts the predicted values from the stored
    returns, transition by transition, and leaves [value_targets] empty. *)
Lemma raw_advantages_a_value (ap : AlgorithmParameters) (batch : Batch)
    (returns : list R) :
  policy_gradient_rescaler ap = A_VALUE ->
  precomputed_returns batch = Some returns ->
  raw_advantages ap batch
  = Ok (map2 Rminus returns (map value_head (states batch)), []).
Proof.
  intros Hm Hr. pose proof (precomputed_returns_length _ _ Hr) as HL.
  unfold raw_advantages, total_returns. rewrite Hm, Hr. cbn [bind].
  destruct batch as [|t [|t' rest]].
  - destruct returns; [reflexivity | discriminate].
  - destruct returns as [|r [|r' rs]]; try discriminate. reflexivity.
  - unfold squeeze, nd_rsub, states. cbn [map].
    rewrite np_binop_same_length; [reflexivity|].
    rewrite HL. cbn [length]. now rewrite !length_map.
Qed.

(** Without the precomputed returns line 115 fails the way
    [total_returns()] does; only an empty array against the zero-dimensional
    value array of a single transition gives a result, the empty array. *)
Lemma raw_advantages_a_value_missing (ap : AlgorithmParameters) (batch : Batch) :
  policy_gradient_rescaler ap = A_VALUE ->
  precomputed_returns batch = None ->
  raw_advantages ap batch
  = match missing_returns with
    | ReturnsEmpty =>
        if Nat.eqb (length batch) 1 then Ok ([], []) else Raise ValueError
    | ReturnsUndefined => Raise TypeError
    | RaisesError e => Raise e
    end.
Proof.
  intros Hm Hr. unfold raw_advantages, total_returns. rewrite Hm, Hr.
  destruct missing_returns; try reflexivity. cbn [bind].
  destruct batch as [|t [|t' rest]]; [discriminate | reflexivity | reflexivity].
Qed.

Lemma episode_isolation_gae (ap : AlgorithmParameters) (e1 e2 : Batch) :
  policy_gradient_rescaler ap = GAE ->
  complete_episode e1 -> complete_episode e2 ->
  exists a1 t1 a2 t2,
    raw_advantages ap (e1 ++ e2) = Ok (a1 ++ a2, t1 ++ t2) /\
    window_estimates ap e1 0 = Ok (a1, t1) /\
    window_estimates ap e2 0 = Ok (a2, t2) /\
    (length e1 <> 1%nat -> raw_advantages ap e1 = Ok (a1, t1)) /\
    (length e2 <> 1%nat -> raw_advantages ap e2 = Ok (a2, t2)).
Proof.
  intros Hm H1 H2.
  destruct (window_estimates_ok ap e1 0) as (a1 & t1 & E1 & _).
  destruct (window_estimates_ok ap e2 0) as (a2 & t2 & E2 & _).
  exists a1, t1, a2, t2.
  assert (Hne : forall e, complete_episode e -> e <> []).
  { intros e (b & f & -> & _) He. now destruct b. }
  split; [|split; [exact E1|split; [exact E2|split]]].
  - rewrite raw_advantages_windows; [|exact Hm|].
    + rewrite (rollouts_two_episodes e1 e2 H1 H2). cbn [fst estimate_windows].
      rewrite E1. cbn [bind]. rewrite E2. cbn [bind]. now rewrite !app_nil_r.
    + pose proof (Hne e1 H1). pose proof (Hne e2 H2). rewrite length_app.
      destruct e1; [congruence|]. destruct e2; [congruence|]. cbn. lia.
  - intros Hl. rewrite raw_advantages_windows by assumption.
    rewrite (rollouts_one_episode e1 H1). cbn [fst estimate_windows].
    rewrite E1. cbn [bind]. now rewrite !app_nil_r.
  - intros Hl. rewrite raw_advantages_windows by assumption.
    rewrite (rollouts_one_episode e2 H2). cbn [fst estimate_windows].
    rewrite E2. cbn [bind]. now rewrite !app_nil_r.
Qed.

(** C6. For a batch made of two complete episodes the advantages before the
    standardization are the advantages of the first episode followed by those
    of the second, each computed on its own; the same holds for the value
    targets.  In GAE mode the computation on one episode is the estimator on
    the episode's rewards and values with the same bootstrap value (0, the
    episodes being terminal), which is also what [fill_advantages] computes on
    the episode alone when it has more than one transition.  (The A_VALUE
    branch, line 115, is outside the loop of the claim; it is covered for
    batches whose returns were precomputed, the others make it raise.) *)
Theorem episode_isolation (ap : AlgorithmParameters) (e1 e2 : Batch) :
  complete_episode e1 -> complete_episode e2 ->
  (policy_gradient_rescaler ap = A_VALUE -> returns_precomputed (e1 ++ e2)) ->
  exists a1 t1 a2 t2,
    raw_advantages ap (e1 ++ e2) = Ok (a1 ++ a2, t1 ++ t2) /\
    match policy_gradient_rescaler ap with
    | GAE =>
        window_estimates ap e1 0 = Ok (a1, t1) /\
        window_estimates ap e2 0 = Ok (a2, t2) /\
        (length e1 <> 1%nat -> raw_advantages ap e1 = Ok (a1, t1)) /\
        (length e2 <> 1%nat -> raw_advantages ap e2 = Ok (a2, t2))
    | _ =>
        raw_advantages ap e1 = Ok (a1, t1) /\
        raw_advantages ap e2 = Ok (a2, t2)
    end.
Proof.
  intros H1 H2 Hr. destruct (policy_gradient_rescaler ap) eqn:Hm.
  - destruct (proj1 (returns_precomputed_some _) (Hr eq_refl)) as [rs Ers].
    rewrite precomputed_returns_app in Ers.
    destruct (precomputed_returns e1) as [r1|] eqn:E1; [|discriminate].
    destruct (precomputed_returns e2) as [r2|] eqn:E2; [|discriminate].
    exists (map2 Rminus r1 (map value_head (states e1))), [],
           (map2 Rminus r2 (map value_head (states e2))), [].
    rewrite (raw_advantages_a_value ap e1 r1 Hm E1).
    rewrite (raw_advantages_a_value ap e2 r2 Hm E2).
    rewrite (raw_advantages_a_value ap (e1 ++ e2) (r1 ++ r2) Hm)
      by (now rewrite precomputed_returns_app, E1, E2).
    repeat split. unfold states. rewrite !map_app, map2_app.
    + reflexivity.
    + rewrite !length_map. now apply precomputed_returns_length.
  - exists [], [], [], []. unfold raw_advantages. rewrite Hm. now repeat split.
  - apply episode_isolation_gae; assumption.
  - exists [], [], [], []. unfold raw_advantages. rewrite Hm. now repeat split.
Qed.

(** ** Minibatches of train_network *)

Lemma firstn_plus (A : Type) (l : list A) (a b : nat) :
  firstn (a + b) l = firstn a l ++ firstn b (skipn a l).
Proof.
  revert l; induction a as [|a IH]; intros l; [reflexivity|].
  destruct l as [|x l]; [now rewrite !firstn_nil|].
  cbn [Nat.add firstn skipn app]. now rewrite IH.
Qed.

Lemma concat_slices (A : Type) (l : list A) (M n : nat) :
  concat (map (fun i => slice l (i * M) ((i + 1) * M)) (seq 0 n))
  = firstn (n * M) l.
Proof.
  induction n as [|n IH]; [reflexivity|].
  rewrite seq_S, map_app, concat_app, IH. cbn [Nat.add map concat].
  rewrite app_nil_r. unfold slice.
  replace ((n + 1) * M - n * M)%nat with M by lia.
  replace (S n * M)%nat with (n * M + M)%nat by lia.
  now rewrite firstn_plus.
Qed.

Lemma slice_full_length (A : Type) (l : list A) (M i : nat) :
  ((i + 1) * M <= length l)%nat ->
  length (slice l (i * M) ((i + 1) * M)) = M.
Proof.
  intros H. unfold slice. rewrite length_firstn, length_skipn. lia.
Qed.

Lemma minibatches_length (M : nat) (batch : Batch) :
  length (minibatches M batch) = (length batch / M)%nat.
Proof. unfold minibatches. now rewrite length_map, length_seq. Qed.

Lemma minibatches_nth (M : nat) (batch : Batch) (i : nat) :
  (i < length batch / M)%nat ->
  nth i (minibatches M batch) [] = slice batch (i * M) ((i + 1) * M).
Proof.
  intros Hi. unfold minibatches.
  set (f := fun i => slice batch (i * M) ((i + 1) * M)).
  rewrite (nth_indep _ [] (f 0%nat)) by (now rewrite length_map, length_seq).
  rewrite (map_nth f), seq_nth by exact Hi. reflexivity.
Qed.

Lemma fold_left_map_list (A B C : Type) (f : A -> C -> A) (g : B -> C)
    (l : list B) (a : A) :
  fold_left f (map g l) a = fold_left (fun acc x => f acc (g x)) l a.
Proof. revert a; induction l as [|x l IH]; intros a; [reflexivity | apply IH]. Qed.

(** The inner loop runs one gradient step per minibatch, in order. *)
Lemma minibatch_loop_steps (M : nat) (batch : Batch)
    (acc : World * LossLists * option (R * R)) :
  fold_left (minibatch_step M batch) (seq 0 (length batch / M)) acc
  = fold_left gradient_step (minibatches M batch) acc.
Proof. unfold minibatches. now rewrite fold_left_map_list. Qed.

Lemma gradient_step_loss (acc : World * LossLists * option (R * R)) (mb : Batch) :
  snd (fst (gradient_step acc mb))
  = append_loss (snd (fst acc)) (snd (train_and_sync_networks (fst (fst acc)) mb)).
Proof.
  destruct acc as [[w loss] pl]. unfold gradient_step. cbn [fst snd].
  now destruct (train_and_sync_networks w mb).
Qed.

(** Every gradient step adds one entry to each accumulator. *)
Lemma gradient_steps_count (mbs : list Batch)
    (acc : World * LossLists * option (R * R)) :
  let loss0 := snd (fst acc) in
  let loss := snd (fst (fold_left gradient_step mbs acc)) in
  length (total_loss loss) = (length (total_loss loss0) + length mbs)%nat /\
  length (policy_losses loss) = (length (policy_losses loss0) + length mbs)%nat /\
  length (unclipped_grads loss) = (length (unclipped_grads loss0) + length mbs)%nat /\
  length (fetch_result loss) = (length (fetch_result loss0) + length mbs)%nat.
Proof.
  revert acc; induction mbs as [|mb mbs IH]; intros acc; cbn zeta.
  - cbn. repeat split; lia.
  - cbn [fold_left]. specialize (IH (gradient_step acc mb)). cbn zeta in IH.
    rewrite gradient_step_loss in IH.
    cbn [append_loss total_loss policy_losses unclipped_grads fetch_result] in IH.
    rewrite !length_app in IH. cbn [length] in *. repeat split; lia.
Qed.

Lemma shuffle_length (w : World) (batch : Batch) :
  length (snd (shuffle w batch)) = length batch.
Proof. symmetry. apply Permutation_length, shuffle_permutes. Qed.

Lemma mean_pairs_index (rows : list (R * R)) (i : nat) :
  rows <> [] -> (i < 2)%nat -> exists x, index_mean (mean_pairs rows) i = Ok x.
Proof.
  intros Hne Hi. destruct rows as [|r rows]; [congruence|].
  cbn [mean_pairs index_mean].
  destruct i as [|[|i]]; [eexists; reflexivity | eexists; reflexivity | lia].
Qed.

(** With fewer transitions than one minibatch an epoch takes no gradient step
    and faults on its first read of the aggregated losses. *)
Lemma run_epoch_small_batch (M j : nat) (st : EpochState) :
  (length (snd (fst (fst st))) < M)%nat ->
  run_epoch M j st = Raise IndexError.
Proof.
  destruct st as [[[w batch] pl] loss]. cbn [fst snd]. intros H.
  unfold run_epoch. pose proof (shuffle_length w batch) as HL.
  destruct (shuffle w batch) as [w1 batch1]. cbn [snd] in HL.
  unfold int_div. destruct (Nat.eqb_spec M 0) as [->|HM]; [lia|].
  cbn [bind]. rewrite HL, Nat.div_small by exact H. reflexivity.
Qed.

(** With at least one full minibatch the epoch completes, whatever the
    remainder of the division is. *)
Lemma run_epoch_ok (M j : nat) (w : World) (batch : Batch)
    (pl : option (R * R)) (loss : option LossMeans) :
  (0 < M)%nat -> (M <= length batch)%nat ->
  let batch1 := snd (shuffle w batch) in
  let r := fold_left gradient_step (minibatches M batch1)
                     (fst (shuffle w batch), empty_loss, pl) in
  run_epoch M j (w, batch, pl, loss)
  = Ok (fst (fst r), batch1, snd r, Some (aggregate (snd (fst r)))).
Proof.
  intros HM HB. cbn zeta. unfold run_epoch.
  pose proof (shuffle_length w batch) as HL.
  destruct (shuffle w batch) as [w1 batch1]. cbn [fst snd] in *.
  unfold int_div. destruct (Nat.eqb_spec M 0); [lia|]. cbn [bind].
  rewrite minibatch_loop_steps.
  pose proof (gradient_steps_count (minibatches M batch1) (w1, empty_loss, pl)) as Hc.
  cbn zeta in Hc.
  destruct (fold_left gradient_step (minibatches M batch1) (w1, empty_loss, pl))
    as [[w2 l] pl'].
  cbn [fst snd empty_loss total_loss policy_losses unclipped_grads fetch_result length]
    in Hc.
  rewrite minibatches_length, HL in Hc.
  assert (Hpos : (0 < length batch / M)%nat) by (apply Nat.div_str_pos; lia).
  destruct Hc as (_ & Hp & _ & Hf).
  assert (Np : policy_losses l <> []) by (intros E; rewrite E in Hp; cbn in Hp; lia).
  assert (Nf : fetch_result l <> []) by (intros E; rewrite E in Hf; cbn in Hf; lia).
  assert (E0 : exists x, index_mean (mean_policy_losses (aggregate l)) 0 = Ok x)
    by (apply mean_pairs_index; [exact Np | lia]).
  assert (E1 : exists x, index_mean (mean_fetch_result (aggregate l)) 0 = Ok x)
    by (apply mean_pairs_index; [exact Nf | lia]).
  assert (E2 : exists x, index_mean (mean_fetch_result (aggregate l)) 1 = Ok x)
    by (apply mean_pairs_index; [exact Nf | lia]).
  destruct E0 as [x0 E0]. destruct E1 as [x1 E1]. destruct E2 as [x2 E2].
  rewrite E0. cbn [bind]. rewrite E1. cbn [bind]. rewrite E2. reflexivity.
Qed.


(** C9. [train_network] needs at least one full minibatch: with fewer
    transitions than the minibatch size (and at least one epoch) the inner
    loop takes no gradient step, the accumulators of the epoch stay empty,
    reading entry 0 of the aggregated [policy_losses] or [fetch_result] is an
    index error, and the call faults instead of completing. *)
Theorem train_network_needs_a_full_minibatch
    (M : nat) (w : World) (batch : Batch) (epochs : nat) :
  (length batch < M)%nat -> (1 <= epochs)%nat ->
  let batch1 := snd (shuffle w batch) in
  minibatches M batch1 = [] /\
  (forall acc,
     fold_left (minibatch_step M batch1) (seq 0 (length batch1 / M)) acc = acc) /\
  index_mean (mean_policy_losses (aggregate empty_loss)) 0 = Raise IndexError /\
  index_mean (mean_fetch_result (aggregate empty_loss)) 0 = Raise IndexError /\
  (forall j pl loss, run_epoch M j (w, batch, pl, loss) = Raise IndexError) /\
  train_network M w batch epochs = Raise IndexError.
Proof.
  intros HB He batch1.
  assert (HL : length batch1 = length batch) by apply shuffle_length.
  assert (Hz : (length batch1 / M = 0)%nat) by (apply Nat.div_small; lia).
  split; [unfold minibatches; now rewrite Hz|].
  split; [intros acc; now rewrite Hz|].
  split; [reflexivity|]. split; [reflexivity|].
  split; [intros j pl loss; now apply run_epoch_small_batch|].
  unfold train_network. destruct epochs as [|n]; [lia|].
  cbn [iterate]. now rewrite run_epoch_small_batch.
Qed.

(** * Further properties of the code *)

(** ** More on the discounting engine *)

Lemma hd_map2_plus (l m : list R) :
  length l = length m -> hd 0 (map2 Rplus l m) = hd 0 l + hd 0 m.
Proof.
  destruct l as [|a l]; destruct m as [|b m]; cbn; intros H; try lia;
    [ring | reflexivity].
Qed.

Lemma discount_plus (x y : list R) (g : R) :
  length x = length y ->
  discount (map2 Rplus x y) g = map2 Rplus (discount x g) (discount y g).
Proof.
  revert y; induction x as [|a x IH]; intros [|b y] H; cbn in H; try lia.
  - reflexivity.
  - cbn [map2]. rewrite !discount_cons. cbn [map2].
    rewrite IH by lia. rewrite hd_map2_plus by (rewrite !discount_length; lia).
    f_equal. ring.
Qed.

Lemma discount_scale (c g : R) (x : list R) :
  discount (map (Rmult c) x) g = map (Rmult c) (discount x g).
Proof.
  induction x as [|a x IH]; [reflexivity|].
  cbn [map]. rewrite !discount_cons, IH. cbn [map]. f_equal.
  destruct (discount x g); cbn; ring.
Qed.

(** X1. [discount] is linear in the sequence: it commutes with the elementwise
    sum of two sequences of equal length and with scaling by a constant. *)
Theorem discount_linear (x y : list R) (c g : R) :
  length x = length y ->
  discount (map2 Rplus x y) g = map2 Rplus (discount x g) (discount y g) /\
  discount (map (Rmult c) x) g = map (Rmult c) (discount x g).
Proof.
  intros H. split; [now apply discount_plus | apply discount_scale].
Qed.

Lemma discount_app_hd (x y : list R) (g : R) :
  hd 0 (discount (x ++ y) g)
  = hd 0 (discount x g) + g ^ length x * hd 0 (discount y g).
Proof.
  induction x as [|a x IH].
  - cbn [app length pow]. rewrite discount_nil. cbn [hd]. ring.
  - cbn [app length pow]. rewrite !discount_cons. cbn [hd]. rewrite IH. ring.
Qed.

Lemma discount_app_skipn (x y : list R) (g : R) :
  skipn (length x) (discount (x ++ y) g) = discount y g.
Proof.
  induction x as [|a x IH]; [reflexivity|].
  cbn [app length]. rewrite discount_cons. cbn [skipn]. exact IH.
Qed.

Lemma discount_app_nth (x y : list R) (g : R) (t : nat) :
  (t < length x)%nat ->
  nth t (discount (x ++ y) g) 0
  = nth t (discount x g) 0 + g ^ (length x - t) * hd 0 (discount y g).
Proof.
  revert t; induction x as [|a x IH]; intros t Ht; cbn in Ht; [lia|].
  cbn [app length]. rewrite !discount_cons. destruct t as [|t].
  - cbn [nth]. rewrite discount_app_hd.
    replace (S (length x) - 0)%nat with (S (length x)) by lia. cbn [pow]. ring.
  - cbn [nth]. rewrite IH by lia.
    replace (S (length x) - S t)%nat with (length x - t)%nat by lia. reflexivity.
Qed.

(** X2. Discounting a sequence followed by a continuation: the entries over
    the continuation are the discounted continuation itself (a return never
    depends on earlier rewards), and the entry [t] of the first part is its own
    discounted return plus [gamma^(T-t)] times the first return of the
    continuation.  This is how a bootstrap value appended to the rewards
    enters every return. *)
Theorem discount_app (x y : list R) (g : R) :
  skipn (length x) (discount (x ++ y) g) = discount y g /\
  forall t, (t < length x)%nat ->
    nth t (discount (x ++ y) g) 0
    = nth t (discount x g) 0 + g ^ (length x - t) * hd 0 (discount y g).
Proof.
  split; [apply discount_app_skipn | intros t; apply discount_app_nth].
Qed.

Lemma discount_bounded_aux (x : list R) (g M : R) :
  0 <= g < 1 -> 0 <= M ->
  Forall (fun v => - M <= v <= M) x ->
  Forall (fun v => - (M / (1 - g)) <= v <= M / (1 - g)) (discount x g) /\
  - (M / (1 - g)) <= hd 0 (discount x g) <= M / (1 - g).
Proof.
  intros Hg HM. set (B := M / (1 - g)).
  assert (HB : M = B - g * B) by (unfold B; field; lra).
  assert (HB0 : 0 <= B).
  { unfold B. apply Rmult_le_pos; [exact HM|].
    apply Rlt_le, Rinv_0_lt_compat. lra. }
  induction 1 as [|a x Ha _ IH].
  - rewrite discount_nil. split; [constructor | cbn; lra].
  - destruct IH as [IHall IHhd]. rewrite discount_cons. cbn [hd].
    assert (Hb : - B <= a + g * hd 0 (discount x g) <= B).
    { assert (g * hd 0 (discount x g) <= g * B) by (apply Rmult_le_compat_l; lra).
      assert (g * (- B) <= g * hd 0 (discount x g)) by (apply Rmult_le_compat_l; lra).
      lra. }
    split; [constructor; assumption | exact Hb].
Qed.

(** X3. For a discount factor in [[0, 1)] the returns stay bounded: when
    every entry of the sequence lies in [[-M, M]], every entry of
    [discount(x, gamma)] lies in [[-M/(1-gamma), M/(1-gamma)]], whatever the
    length. *)
Theorem discount_bounded (x : list R) (g M : R) :
  0 <= g < 1 -> 0 <= M ->
  Forall (fun v => - M <= v <= M) x ->
  Forall (fun v => - (M / (1 - g)) <= v <= M / (1 - g)) (discount x g).
Proof. intros Hg HM H. now apply discount_bounded_aux. Qed.

(** ** Shapes and special cases of the advantage estimator *)

Lemma np_binop_mismatch (f : R -> R -> R) (a b : list R) :
  length a <> length b -> length a <> 1%nat -> length b <> 1%nat ->
  np_binop f a b = Raise ValueError.
Proof.
  intros H Ha Hb. unfold np_binop.
  destruct (Nat.eqb_spec (length a) (length b)) as [E|_]; [contradiction|].
  destruct a as [|x [|x' a]]; destruct b as [|y [|y' b]]; cbn in *;
    try reflexivity; lia.
Qed.

(** X4. [get_general_advantage_estimation_values] does not check its shape
    contract itself.  An empty value array is an index error; rewards and
    values whose lengths neither fit ([len(values) = len(rewards) + 1]) nor
    broadcast (one reward, or two values) are a value error. *)
Theorem gae_shape_errors (ap : AlgorithmParameters) (rewards_ values : list R) :
  get_general_advantage_estimation_values ap rewards_ [] = Raise IndexError /\
  (values <> [] ->
   length values <> S (length rewards_) ->
   length rewards_ <> 1%nat -> length values <> 2%nat ->
   get_general_advantage_estimation_values ap rewards_ values = Raise ValueError).
Proof.
  split; [reflexivity|].
  intros Hne HL H1 H2. unfold get_general_advantage_estimation_values.
  rewrite (index_last_nonempty _ _ 0 Hne). cbn [bind].
  rewrite np_binop_mismatch; [reflexivity | | exact H1 |];
    rewrite length_map, length_tl; destruct values; cbn in *; try congruence; lia.
Qed.

(** X5. A single reward is broadcast over a longer value array instead of
    being rejected: the call returns one advantage per value but the last. *)
Theorem gae_single_reward_broadcasts
    (ap : AlgorithmParameters) (r : R) (values : list R) :
  (3 <= length values)%nat ->
  exists advantage_ target,
    get_general_advantage_estimation_values ap [r] values = Ok (advantage_, target) /\
    length advantage_ = (length values - 1)%nat.
Proof.
  intros HL. unfold get_general_advantage_estimation_values.
  assert (Hne : values <> []) by (destruct values; [cbn in HL; lia | discriminate]).
  rewrite (index_last_nonempty _ _ 0 Hne). cbn [bind].
  assert (Lt : length (map (Rmult (ap_discount ap)) (tl values)) = (length values - 1)%nat)
    by (now rewrite length_map, length_tl).
  assert (E1 : np_binop Rplus [r] (map (Rmult (ap_discount ap)) (tl values))
               = Ok (map (Rplus r) (map (Rmult (ap_discount ap)) (tl values)))).
  { unfold np_binop. cbn [length].
    destruct (Nat.eqb_spec 1 (length (map (Rmult (ap_discount ap)) (tl values))));
      [lia | reflexivity]. }
  rewrite E1. cbn [bind].
  rewrite np_binop_same_length
    by (rewrite !length_map, length_tl, length_removelast; reflexivity).
  cbn [bind].
  set (deltas := map2 Rminus _ _).
  assert (Ld : length deltas = (length values - 1)%nat).
  { unfold deltas. rewrite map2_length; rewrite !length_map, length_tl;
      [reflexivity | now rewrite length_removelast]. }
  destruct (estimate_state_value_using_gae ap).
  - rewrite np_binop_same_length
      by (now rewrite discount_length, Ld, length_removelast).
    cbn [bind]. eexists. eexists. split; [reflexivity|].
    now rewrite discount_length.
  - cbn [bind]. eexists. eexists. split; [reflexivity|].
    now rewrite discount_length.
Qed.

Lemma td_residuals_zero (g : R) (rewards_ values : list R) :
  length values = S (length rewards_) ->
  (forall i, (i < length rewards_)%nat ->
     nth i values 0 = nth i rewards_ 0 + g * nth (S i) values 0) ->
  td_residuals g rewards_ values = repeat 0 (length rewards_).
Proof.
  intros HL HB.
  apply (nth_ext _ _ 0 0).
  - now rewrite td_residuals_length, repeat_length.
  - intros i Hi. rewrite td_residuals_length in Hi by exact HL.
    rewrite td_residuals_nth by assumption.
    rewrite nth_repeat. rewrite (HB i Hi). ring.
Qed.

Lemma map2_plus_zeros (l : list R) :
  map2 Rplus (repeat 0 (length l)) l = l.
Proof. induction l as [|a l IH]; cbn; [reflexivity|]. rewrite IH. f_equal. ring. Qed.

(** X6. A critic that is consistent with the rewards,
    [V[i] = reward[i] + gamma * V[i+1]] for every step, gets advantage 0
    everywhere, for every [lambda], and in both target modes the value targets
    are the current estimates [V[0..N-1]]. *)
Theorem gae_consistent_critic (ap : AlgorithmParameters) (rewards_ values : list R) :
  length values = S (length rewards_) ->
  (forall i, (i < length rewards_)%nat ->
     nth i values 0 = nth i rewards_ 0 + ap_discount ap * nth (S i) values 0) ->
  get_general_advantage_estimation_values ap rewards_ values
  = Ok (repeat 0 (length rewards_), removelast values).
Proof.
  intros HL HB. rewrite get_gae_ok by exact HL.
  rewrite (td_residuals_zero _ _ _ HL HB), discount_zeros.
  assert (Lr : length rewards_ = length (removelast values))
    by (rewrite length_removelast; lia).
  destruct (estimate_state_value_using_gae ap).
  - rewrite Lr at 2. now rewrite map2_plus_zeros.
  - rewrite <- gae_lambda_one by exact HL.
    rewrite (td_residuals_zero _ _ _ HL HB), discount_zeros.
    rewrite Lr at 2. now rewrite map2_plus_zeros.
Qed.

(** X7. With [gae_lambda = 0] the advantage is the one-step TD residual
    [reward[i] + gamma * V[i+1] - V[i]]. *)
Theorem gae_lambda_zero (ap : AlgorithmParameters) (rewards_ values : list R) :
  length values = S (length rewards_) ->
  gae_lambda ap = 0 ->
  exists advantage_ target,
    get_general_advantage_estimation_values ap rewards_ values
      = Ok (advantage_, target) /\
    length advantage_ = length rewards_ /\
    forall i, (i < length rewards_)%nat ->
      nth i advantage_ 0
      = nth i rewards_ 0 + ap_discount ap * nth (S i) values 0 - nth i values 0.
Proof.
  intros HL Hl. eexists. eexists. split; [apply get_gae_ok; exact HL|].
  rewrite Hl, Rmult_0_r, discount_gamma_zero.
  split; [now apply td_residuals_length|].
  intros i Hi. now apply td_residuals_nth.
Qed.

(** ** Further properties of learn_from_batch *)

Lemma nonempty_snoc (A : Type) (l : list A) :
  l <> [] -> exists body final, l = body ++ [final].
Proof.
  intros H. destruct (exists_last H) as (body & final & E). now exists body, final.
Qed.

(** X8. [learn_from_batch] on an empty batch: the three supported modes fail
    with an index error when they read the last [game_over] flag or the last
    next state, the fallback branch returns empty arrays.  On a non-empty batch
    every mode returns, with one value target and one advantage per
    transition. *)
Theorem learn_from_batch_shapes (ap : AlgorithmParameters) (batch : Batch) :
  (batch = [] ->
   learn_from_batch ap batch =
   match policy_gradient_rescaler ap with
   | OTHER_RESCALER => Ok ([], [])
   | _ => Raise IndexError
   end) /\
  (batch <> [] ->
   exists target advantage_,
     learn_from_batch ap batch = Ok (target, advantage_) /\
     length target = length batch /\ length advantage_ = length batch).
Proof.
  split.
  - intros ->. unfold learn_from_batch.
    destruct (policy_gradient_rescaler ap); reflexivity.
  - intros Hne. destruct (nonempty_snoc _ batch Hne) as (body & final & ->).
    assert (LR : length (rewards (body ++ [final])) = length (body ++ [final]))
      by (unfold rewards; now rewrite length_map).
    assert (LS : forall f : State -> R,
               length (map f (states (body ++ [final]))) = length (body ++ [final]))
      by (intros f; unfold states; now rewrite !length_map).
    destruct (policy_gradient_rescaler ap) eqn:Hm.
    + eexists. eexists. split; [apply a_value_ok; exact Hm|]. cbn zeta.
      rewrite map2_length; rewrite bootstrapped_returns_length, ?LS; auto.
    + eexists. eexists. split; [apply custom_actor_critic_ok; exact Hm|]. cbn zeta.
      rewrite map2_length; rewrite bootstrapped_returns_length, ?LS; auto.
    + destruct (gae_branch_ok ap body final Hm) as (a & t & Ew & El).
      destruct (window_estimates_ok ap (body ++ [final])
                  (if game_over final then 0 else value_head (next_state final)))
        as (a' & t' & Ew' & La & Lt).
      rewrite Ew in Ew'. injection Ew' as <- <-.
      exists t, a. now repeat split.
    + exists (repeat 0 (length (body ++ [final]))),
             (repeat 0 (length (body ++ [final]))).
      unfold learn_from_batch. rewrite Hm, !repeat_length. now repeat split.
Qed.

Lemma bootstrapped_returns_hd (g b : R) (rs : list R) :
  hd b (bootstrapped_returns g b rs) = hd 0 (discount (rs ++ [b]) g).
Proof.
  induction rs as [|r rs IH].
  - cbn [bootstrapped_returns app]. rewrite discount_cons, discount_nil.
    cbn [hd]. ring.
  - cbn [bootstrapped_returns app]. rewrite discount_cons. cbn [hd].
    now rewrite IH.
Qed.

Lemma bootstrapped_returns_discount (g b : R) (rs : list R) :
  bootstrapped_returns g b rs = removelast (discount (rs ++ [b]) g).
Proof.
  induction rs as [|r rs IH].
  - cbn [bootstrapped_returns app]. now rewrite discount_cons, discount_nil.
  - cbn [bootstrapped_returns app]. rewrite discount_cons.
    assert (HE : discount (rs ++ [b]) g <> []).
    { intro HE. apply (f_equal (@length R)) in HE.
      rewrite discount_length, length_app in HE. cbn in HE. lia. }
    now rewrite (removelast_cons _ _ _ HE), <- IH, bootstrapped_returns_hd.
Qed.

(** X9. The backward loop of the A_VALUE and CUSTOM_ACTOR_CRITIC branches
    computes what the discounting engine computes: the value targets are
    [discount(rewards ++ [bootstrap], gamma)] without its last entry, and the
    advantages are the targets minus the predicted values. *)
Theorem backward_pass_is_discount
    (ap : AlgorithmParameters) (body : Batch) (final : Transition) :
  policy_gradient_rescaler ap = A_VALUE \/
  policy_gradient_rescaler ap = CUSTOM_ACTOR_CRITIC ->
  let batch := body ++ [final] in
  let predict :=
    match policy_gradient_rescaler ap with
    | CUSTOM_ACTOR_CRITIC => critic_value
    | _ => value_head
    end in
  let bootstrap := if game_over final then 0 else predict (next_state final) in
  let returns_ := removelast (discount (rewards batch ++ [bootstrap]) (ap_discount ap)) in
  learn_from_batch ap batch
  = Ok (returns_, map2 Rminus returns_ (map predict (states batch))).
Proof.
  intros [Hm|Hm] batch predict bootstrap returns_;
    unfold returns_, bootstrap, predict, batch; rewrite Hm.
  - rewrite a_value_ok by exact Hm. cbn zeta.
    now rewrite bootstrapped_returns_discount.
  - rewrite custom_actor_critic_ok by exact Hm. cbn zeta.
    now rewrite bootstrapped_returns_discount.
Qed.

Lemma map2_plus_minus (a v b : list R) :
  length a = length v -> map2 Rplus a v = b -> a = map2 Rminus b v.
Proof.
  revert v b; induction a as [|x a IH]; intros [|y v] b HL E; cbn in HL; try lia.
  - now subst b.
  - cbn [map2] in E. subst b. cbn [map2]. f_equal; [ring|].
    apply IH; [lia | reflexivity].
Qed.

(** X10. GAE with [gae_lambda = 1] and [estimate_state_value_using_gae] off
    is the A_VALUE computation: for the same discount factor the two modes of
    [learn_from_batch] return the same value targets and the same advantages on
    every batch (and fail alike on the empty one). *)
Theorem gae_lambda_one_is_a_value
    (ap1 ap2 : AlgorithmParameters) (batch : Batch) :
  policy_gradient_rescaler ap1 = A_VALUE ->
  policy_gradient_rescaler ap2 = GAE ->
  gae_lambda ap2 = 1 ->
  estimate_state_value_using_gae ap2 = false ->
  ap_discount ap1 = ap_discount ap2 ->
  learn_from_batch ap1 batch = learn_from_batch ap2 batch.
Proof.
  intros H1 H2 Hl Hf Hg.
  destruct batch as [|t0 rest].
  { unfold learn_from_batch. now rewrite H1, H2. }
  destruct (nonempty_snoc _ (t0 :: rest)) as (body & final & ->); [discriminate|].
  rewrite a_value_ok by exact H1. cbn zeta.
  destruct (gae_branch_ok ap2 body final H2) as (a & t & Ew & ->).
  set (R0 := if game_over final then 0 else value_head (next_state final)) in *.
  unfold window_estimates in Ew.
  assert (HL : length (map value_head (states (body ++ [final])) ++ [R0])
               = S (length (rewards (body ++ [final])))).
  { unfold states, rewards. rewrite length_app, !length_map. cbn. lia. }
  rewrite (get_gae_ok ap2 _ _ HL), Hf, Hl in Ew. injection Ew as <- <-.
  rewrite last_last, <- bootstrapped_returns_discount, Hg.
  f_equal. f_equal. symmetry. apply map2_plus_minus.
  - rewrite discount_length, td_residuals_length by exact HL.
    unfold states, rewards. now rewrite !length_map.
  - pose proof (gae_lambda_one (ap_discount ap2) _ _ HL) as E.
    rewrite removelast_last, last_last, <- bootstrapped_returns_discount in E.
    exact E.
Qed.

(** ** Further properties of fill_advantages *)

Lemma write_info_no_targets (ts : Batch) (advs : list fval) :
  write_info ts advs [] = ts.
Proof. destruct ts; destruct advs; reflexivity. Qed.

Lemma write_info_frame (B : Type) (f : Transition -> B)
    (ts : Batch) (advs : list fval) (tgs : list R) :
  (forall t a v, f (set_info t a v) = f t) ->
  map f (write_info ts advs tgs) = map f ts.
Proof.
  intros Hf. revert advs tgs; induction ts as [|t ts IH]; intros advs tgs;
    [reflexivity|].
  destruct advs as [|a advs]; [reflexivity|].
  destruct tgs as [|v tgs]; [reflexivity|].
  cbn [write_info map]. now rewrite Hf, IH.
Qed.

Lemma fill_advantages_no_targets (ap : AlgorithmParameters) (batch : Batch)
    (advantages : list R) :
  raw_advantages ap batch = Ok (advantages, []) ->
  fill_advantages ap batch = Ok batch.
Proof.
  intros E. unfold fill_advantages. rewrite E. cbn [bind].
  now rewrite write_info_no_targets.
Qed.

Lemma fill_advantages_other_modes (ap : AlgorithmParameters) (batch : Batch) :
  policy_gradient_rescaler ap <> GAE ->
  policy_gradient_rescaler ap <> A_VALUE \/ returns_precomputed batch ->
  fill_advantages ap batch = Ok batch.
Proof.
  intros Hm Hr.
  destruct (policy_gradient_rescaler ap) eqn:E; try congruence.
  - destruct Hr as [Hr|Hr]; [congruence|].
    destruct (proj1 (returns_precomputed_some batch) Hr) as [rs Ers].
    apply (fill_advantages_no_targets ap batch
             (map2 Rminus rs (map value_head (states batch)))).
    now apply raw_advantages_a_value.
  - apply (fill_advantages_no_targets ap batch []).
    unfold raw_advantages. now rewrite E.
  - apply (fill_advantages_no_targets ap batch []).
    unfold raw_advantages. now rewrite E.
Qed.

Lemma fill_advantages_a_value_missing (ap : AlgorithmParameters) (batch : Batch) :
  policy_gradient_rescaler ap = A_VALUE ->
  ~ returns_precomputed batch ->
  fill_advantages ap batch
  = match missing_returns with
    | ReturnsEmpty =>
        if Nat.eqb (length batch) 1 then Ok batch else Raise ValueError
    | ReturnsUndefined => Raise TypeError
    | RaisesError e => Raise e
    end.
Proof.
  intros Hm Hr. apply returns_precomputed_none in Hr.
  pose proof (raw_advantages_a_value_missing ap batch Hm Hr) as E.
  destruct missing_returns.
  - destruct (Nat.eqb (length batch) 1).
    + now apply (fill_advantages_no_targets ap batch []).
    + unfold fill_advantages. now rewrite E.
  - unfold fill_advantages. now rewrite E.
  - unfold fill_advantages. now rewrite E.
Qed.

(** X11. Outside GAE mode [fill_advantages] stores nothing: [value_targets]
    stays the empty list, so the final [zip] has no element and every
    transition keeps its info, also in A_VALUE mode, where advantages were
    computed.  Whenever the call returns, it returns the batch as it was; and
    it returns unless, in A_VALUE mode, a precomputed return is missing. *)
Theorem fill_advantages_stores_only_in_gae_mode
    (ap : AlgorithmParameters) (batch : Batch) :
  policy_gradient_rescaler ap <> GAE ->
  (forall batch', fill_advantages ap batch = Ok batch' -> batch' = batch) /\
  (policy_gradient_rescaler ap <> A_VALUE \/ returns_precomputed batch ->
   fill_advantages ap batch = Ok batch).
Proof.
  intros Hm. split; [|now apply fill_advantages_other_modes].
  intros batch' H.
  assert (D : (policy_gradient_rescaler ap <> A_VALUE \/ returns_precomputed batch)
              \/ (policy_gradient_rescaler ap = A_VALUE /\ ~ returns_precomputed batch)).
  { destruct (policy_gradient_rescaler ap) eqn:E;
      try (left; left; discriminate).
    destruct (precomputed_returns batch) as [rs|] eqn:Er.
    - left; right. apply returns_precomputed_some. now exists rs.
    - right. split; [reflexivity | now apply returns_precomputed_none]. }
  destruct D as [D|[Da Dr]].
  - rewrite (fill_advantages_other_modes ap batch Hm D) in H. now injection H.
  - rewrite (fill_advantages_a_value_missing ap batch Da Dr) in H.
    destruct missing_returns; try discriminate.
    destruct (Nat.eqb (length batch) 1); [now injection H | discriminate].
Qed.

(** X12. When [fill_advantages] faults.  In GAE mode the only failing input is
    a batch of exactly one transition that is terminal: the squeezed value
    array is zero-dimensional and the window cannot be sliced out of it.  In
    A_VALUE mode the failing inputs are the batches with a transition whose
    return was not precomputed: line 115 then fails the way [total_returns()]
    does, with one exception, an empty array of returns against the
    zero-dimensional value array of a single transition, which is the empty
    array.  On every other input the call returns a batch of the same
    length. *)
Theorem fill_advantages_faults (ap : AlgorithmParameters) (batch : Batch) :
  (forall t, policy_gradient_rescaler ap = GAE -> batch = [t] ->
             game_over t = true ->
             fill_advantages ap batch = Raise IndexError) /\
  (policy_gradient_rescaler ap = A_VALUE -> ~ returns_precomputed batch ->
   fill_advantages ap batch
   = match missing_returns with
     | ReturnsEmpty =>
         if Nat.eqb (length batch) 1 then Ok batch else Raise ValueError
     | ReturnsUndefined => Raise TypeError
     | RaisesError e => Raise e
     end) /\
  (match policy_gradient_rescaler ap with
   | GAE => length batch <> 1%nat \/ exists t, batch = [t] /\ game_over t = false
   | A_VALUE => returns_precomputed batch
   | _ => True
   end ->
   exists batch', fill_advantages ap batch = Ok batch' /\
                  length batch' = length batch).
Proof.
  split; [|split].
  - intros t Hm -> Hgo. unfold fill_advantages, raw_advantages. rewrite Hm.
    cbn [states game_overs map squeeze rollout_loop]. unfold rollout_step.
    rewrite Hgo. reflexivity.
  - apply fill_advantages_a_value_missing.
  - intros H. destruct (policy_gradient_rescaler ap) eqn:Hm.
    + exists batch. split; [|reflexivity].
      apply fill_advantages_other_modes; [congruence | now right].
    + exists batch. split; [|reflexivity].
      apply fill_advantages_other_modes; [congruence | left; congruence].
    + destruct H as [H|(t & -> & Hgo)].
      * destruct (fill_advantages_gae ap batch Hm H)
          as (adv & tg & b' & _ & _ & _ & _ & E & L & _).
        now exists b'.
      * exists [t]. unfold fill_advantages, raw_advantages. rewrite Hm.
        cbn [states game_overs map squeeze rollout_loop]. unfold rollout_step.
        rewrite Hgo. now cbn.
    + exists batch. split; [|reflexivity].
      apply fill_advantages_other_modes; [congruence | left; congruence].
Qed.

Lemma precomputed_returns_ext (b1 b2 : Batch) :
  map total_return b1 = map total_return b2 ->
  precomputed_returns b1 = precomputed_returns b2.
Proof.
  revert b2; induction b1 as [|t b1 IH]; intros [|t' b2] H; try discriminate.
  - reflexivity.
  - cbn [map] in H. injection H as Ht Hb.
    cbn [precomputed_returns]. now rewrite Ht, (IH b2 Hb).
Qed.

(** X13. [fill_advantages] touches nothing but [info]: states, rewards, next
    states, [game_over] flags and total returns of the batch it returns are
    those of the batch it was given, in the same order. *)
Theorem fill_advantages_frame (ap : AlgorithmParameters) (batch batch' : Batch) :
  fill_advantages ap batch = Ok batch' ->
  states batch' = states batch /\
  rewards batch' = rewards batch /\
  next_states batch' = next_states batch /\
  game_overs batch' = game_overs batch /\
  total_returns batch' = total_returns batch.
Proof.
  unfold fill_advantages. intros H.
  destruct (raw_advantages ap batch) as [[adv tg]|e]; cbn [bind] in H;
    [|discriminate].
  injection H as <-.
  unfold states, rewards, next_states, game_overs, total_returns.
  repeat split; try (apply write_info_frame; reflexivity).
  rewrite (precomputed_returns_ext (write_info batch (standardize adv) tg) batch);
    [reflexivity|].
  apply write_info_frame; reflexivity.
Qed.

Lemma nth_snoc_last (l : list R) (x : R) : nth (length l) (l ++ [x]) 0 = x.
Proof. rewrite app_nth2 by lia. now rewrite Nat.sub_diag. Qed.

(** With bootstrap 0 the last value target of a window is the last reward. *)
Lemma gae_terminal_target (ap : AlgorithmParameters) (rs vs : list R) (r v : R) :
  length vs = length rs ->
  exists adv tg,
    get_general_advantage_estimation_values ap (rs ++ [r]) (vs ++ [v] ++ [0])
      = Ok (adv, tg) /\
    nth (length rs) tg 0 = r.
Proof.
  intros HL.
  assert (H : length (vs ++ [v] ++ [0]) = S (length (rs ++ [r])))
    by (rewrite !length_app; cbn; lia).
  eexists. eexists. split; [apply get_gae_ok; exact H|].
  assert (Hv : nth (length rs) (vs ++ [v] ++ [0]) 0 = v).
  { rewrite <- HL. rewrite app_nth2 by lia. now rewrite Nat.sub_diag. }
  assert (Hb : nth (S (length rs)) (vs ++ [v] ++ [0]) 0 = 0).
  { rewrite <- HL. rewrite app_nth2 by lia.
    replace (S (length vs) - length vs)%nat with 1%nat by lia. reflexivity. }
  assert (Hr : nth (length rs) (rs ++ [r]) 0 = r) by apply nth_snoc_last.
  assert (LN : length (rs ++ [r]) = S (length rs)) by (rewrite length_app; cbn; lia).
  destruct (estimate_state_value_using_gae ap).
  - rewrite map2_nth.
    + rewrite discount_nth_recurrence
        by (rewrite td_residuals_length by exact H; lia).
      rewrite (nth_overflow (discount _ _))
        by (rewrite discount_length, td_residuals_length by exact H; lia).
      rewrite td_residuals_nth by (exact H || lia).
      rewrite nth_removelast by lia.
      rewrite Hr, Hv, Hb. ring.
    + rewrite discount_length, td_residuals_length, length_removelast by exact H. lia.
    + rewrite discount_length, td_residuals_length by exact H. lia.
  - assert (Elast : last (vs ++ [v] ++ [0]) 0 = 0).
    { rewrite app_assoc. apply last_last. }
    rewrite Elast.
    assert (LD : length (discount ((rs ++ [r]) ++ [0]) (ap_discount ap))
                 = S (S (length rs))).
    { rewrite discount_length, !length_app. cbn. lia. }
    rewrite nth_removelast by lia.
    rewrite discount_nth_recurrence by (rewrite !length_app; cbn; lia).
    rewrite (discount_nth_recurrence _ _ (S (length rs)))
      by (rewrite !length_app; cbn; lia).
    rewrite (nth_overflow (discount _ _)) by lia.
    rewrite app_nth1 by lia. rewrite Hr.
    replace (S (length rs)) with (length (rs ++ [r])) by exact LN.
    rewrite nth_snoc_last. ring.
Qed.

Lemma window_terminal_target (ap : AlgorithmParameters) (body : Batch)
    (final : Transition) (a t : list R) :
  window_estimates ap (body ++ [final]) 0 = Ok (a, t) ->
  nth (length body) t 0 = reward final.
Proof.
  intros E. unfold window_estimates, rewards, states in E.
  rewrite !map_app in E. cbn [map] in E. rewrite <- app_assoc in E.
  destruct (gae_terminal_target ap (map reward body)
              (map value_head (map state body)) (reward final)
              (value_head (state final)))
    as (a' & t' & E' & Ht); [now rewrite !length_map|].
  rewrite E in E'. injection E' as <- <-.
  now rewrite length_map in Ht.
Qed.

Lemma estimate_windows_terminal (ap : AlgorithmParameters) (windows : list Batch) :
  Forall complete_episode windows ->
  forall a tg i t,
    estimate_windows ap windows = Ok (a, tg) ->
    nth_error (concat windows) i = Some t ->
    game_over t = true ->
    nth i tg 0 = reward t.
Proof.
  induction 1 as [|w ws (body & final & -> & Hf & Hb) _ IH];
    intros a tg i t E Hi Hgo.
  - destruct i; discriminate.
  - cbn [estimate_windows concat] in E, Hi.
    destruct (window_estimates_ok ap (body ++ [final]) 0) as (a1 & t1 & E1 & _ & L1).
    destruct (estimate_windows_ok ap ws) as (a2 & t2 & E2 & _).
    rewrite E1 in E. cbn [bind] in E. rewrite E2 in E. cbn [bind] in E.
    injection E as <- <-.
    rewrite length_app in L1. cbn [length] in L1.
    destruct (Nat.lt_ge_cases i (length (body ++ [final]))) as [Hlt|Hge].
    + rewrite nth_error_app1 in Hi by exact Hlt.
      rewrite app_nth1 by (rewrite length_app in Hlt; cbn in Hlt; lia).
      rewrite length_app in Hlt. cbn [length] in Hlt.
      destruct (Nat.eq_dec i (length body)) as [->|Hne].
      * rewrite nth_error_app2, Nat.sub_diag in Hi by lia.
        cbn in Hi. injection Hi as <-.
        now apply (window_terminal_target ap body final a1 t1).
      * rewrite nth_error_app1 in Hi by lia.
        apply nth_error_In in Hi.
        rewrite forallb_forall in Hb. specialize (Hb t Hi).
        rewrite Hgo in Hb. discriminate.
    + rewrite nth_error_app2 in Hi by exact Hge.
      rewrite app_nth2 by (rewrite length_app in Hge; cbn in Hge; lia).
      replace (length t1) with (length (body ++ [final]))
        by (rewrite length_app; cbn; lia).
      now apply (IH a2 t2 _ t E2 Hi Hgo).
Qed.

(** X14. In GAE mode every terminal transition is given its own reward as
    value target (the bootstrap after it is 0), in both target modes and
    whatever the value head predicts. *)
Theorem terminal_value_target_is_reward (ap : AlgorithmParameters) (batch : Batch) :
  policy_gradient_rescaler ap = GAE ->
  length batch <> 1%nat ->
  exists batch',
    fill_advantages ap batch = Ok batch' /\
    forall i t, nth_error batch i = Some t -> game_over t = true ->
      exists t', nth_error batch' i = Some t' /\
                 gae_based_value_target (info t') = Some (reward t).
Proof.
  intros Hm Hl.
  destruct (fill_advantages_gae ap batch Hm Hl)
    as (adv & tg & b' & _ & E & _ & _ & Ef & _ & Hn).
  exists b'. split; [exact Ef|]. intros i t Hi Hgo.
  pose proof (rollouts_partition batch) as Hp.
  pose proof (rollouts_open_run batch) as Ho.
  assert (Hlt : (i < length (concat (fst (rollouts batch))))%nat).
  { destruct (Nat.lt_ge_cases i (length (concat (fst (rollouts batch)))))
      as [H|H]; [exact H|].
    rewrite <- Hp in Hi. rewrite nth_error_app2 in Hi by exact H.
    apply nth_error_In in Hi. rewrite forallb_forall in Ho.
    specialize (Ho t Hi). rewrite Hgo in Ho. discriminate. }
  rewrite (Hn i t Hi). rewrite (proj2 (Nat.ltb_lt _ _) Hlt).
  eexists. split; [reflexivity|]. cbn [set_info info gae_based_value_target].
  f_equal. apply (estimate_windows_terminal ap _ (rollouts_complete batch) adv tg i t E);
    [|exact Hgo].
  rewrite <- Hp in Hi. now rewrite nth_error_app1 in Hi by exact Hlt.
Qed.

(** ** Further properties of train_network *)

(** X15. The two remaining ways [train_network] fails before any gradient
    step: with no epoch the variable [loss] is still the initial list and
    [loss['fetch_result']] is a type error; with a minibatch size of 0 the
    first epoch divides by zero. *)
Theorem train_network_errors (M : nat) (w : World) (batch : Batch) (epochs : nat) :
  train_network M w batch 0 = Raise TypeError /\
  ((1 <= epochs)%nat -> train_network 0 w batch epochs = Raise ZeroDivisionError).
Proof.
  split; [reflexivity|].
  intros He. destruct epochs as [|n]; [lia|].
  unfold train_network. cbn [iterate]. unfold run_epoch.
  now destruct (shuffle w batch).
Qed.

Lemma bind_assoc (A B C : Type) (m : result A) (f : A -> result B) (g : B -> result C) :
  bind (bind m f) g = bind m (fun a => bind (f a) g).
Proof. now destruct m. Qed.

Lemma iterate_last (A : Type) (n : nat) (f : nat -> A -> result A) (j : nat) (a : A) :
  iterate (S n) f j a = bind (iterate n f j a) (f (j + n)%nat).
Proof.
  revert j a; induction n as [|n IH]; intros j a.
  - cbn [iterate bind]. rewrite Nat.add_0_r. now destruct (f j a).
  - change (iterate (S (S n)) f j a)
      with (bind (f j a) (fun a' => iterate (S n) f (S j) a')).
    change (iterate (S n) f j a)
      with (bind (f j a) (fun a' => iterate n f (S j) a')).
    rewrite bind_assoc. destruct (f j a) as [a'|e]; [|reflexivity].
    cbn [bind]. rewrite IH. now rewrite Nat.add_succ_r.
Qed.

(** With at least one full minibatch every epoch completes and hands on a
    reordering of the batch. *)
Lemma epochs_complete (M : nat) (batch : Batch) :
  (0 < M)%nat -> (M <= length batch)%nat ->
  forall n j (w : World) (b : Batch) pl loss,
    Permutation batch b ->
    exists (w' : World) (b' : Batch) pl' loss',
      iterate n (run_epoch M) j (w, b, pl, loss) = Ok (w', b', pl', loss') /\
      Permutation batch b'.
Proof.
  intros HM HB. induction n as [|n IH]; intros j w b pl loss Hp.
  - exists w, b, pl, loss. now split.
  - cbn [iterate].
    rewrite run_epoch_ok; [|exact HM|rewrite <- (Permutation_length Hp); exact HB].
    cbn zeta. cbn [bind]. apply IH.
    apply (Permutation_trans Hp), shuffle_permutes.
Qed.

Lemma last_nth_pred (A : Type) (l : list A) (d : A) :
  last l d = nth (length l - 1) l d.
Proof.
  induction l as [|a l IH]; [reflexivity|].
  destruct l as [|b l]; [reflexivity|].
  change (last (a :: b :: l) d) with (last (b :: l) d). rewrite IH.
  cbn [length]. replace (S (S (length l)) - 1)%nat with (S (length l - 0)) by lia.
  cbn [nth]. now replace (S (length l) - 1)%nat with (length l - 0)%nat by lia.
Qed.


(** ** get_value_for_states *)

Lemma weighted_sum_bounds (lo hi : R) (q p : list R) :
  length q = length p ->
  Forall (fun x => 0 <= x) p ->
  Forall (fun x => lo <= x <= hi) q ->
  lo * sum p <= sum (map2 Rmult q p) <= hi * sum p.
Proof.
  revert p; induction q as [|x q IH]; intros [|y p] HL Hp Hq; cbn in HL; try lia.
  - cbn. lra.
  - inversion Hp as [|? ? Hy Hp']; subst. inversion Hq as [|? ? Hx Hq']; subst.
    cbn [map2]. rewrite !sum_cons.
    specialize (IH p ltac:(lia) Hp' Hq').
    assert (lo * y <= x * y) by (apply Rmult_le_compat_r; lra).
    assert (x * y <= hi * y) by (apply Rmult_le_compat_r; lra).
    lra.
Qed.


(** ** The attention discretization *)

Lemma flat_map_ext_in (A B : Type) (f g : A -> list B) (l : list A) :
  (forall a, In a l -> f a = g a) -> flat_map f l = flat_map g l.
Proof.
  induction l as [|a l IH]; intros H; [reflexivity|].
  cbn [flat_map]. rewrite (H a) by now left.
  rewrite IH; [reflexivity|]. intros b Hb. apply H. now right.
Qed.

Lemma flat_map_guarded_seq (B : Type) (f : nat -> list B) (n : nat) :
  flat_map (fun i => if Nat.ltb i n then f i else []) (seq 0 (n + 1))
  = flat_map f (seq 0 n).
Proof.
  rewrite Nat.add_1_r, seq_S, flat_map_app. cbn [flat_map Nat.add].
  rewrite Nat.ltb_irrefl, !app_nil_r.
  apply flat_map_ext_in. intros i Hi. apply in_seq in Hi.
  now rewrite (proj2 (Nat.ltb_lt i n)) by lia.
Qed.

Lemma flat_map_singleton (A B : Type) (f : A -> B) (l : list A) :
  flat_map (fun x => [f x]) l = map f l.
Proof. induction l as [|a l IH]; cbn; [reflexivity | now rewrite IH]. Qed.

(** The comprehension with its two guards is the row-major enumeration of the
    cells [(i, j)], [i < rows], [j < cols]. *)
Lemma start_ind_cells (rows cols : nat) :
  AttentionDiscretization.start_ind rows cols
  = flat_map (fun i => map (fun j => (i * (cols + 1) + j)%nat) (seq 0 cols))
             (seq 0 rows).
Proof.
  unfold AttentionDiscretization.start_ind.
  rewrite (flat_map_guarded_seq _
             (fun i => flat_map (fun j => if Nat.ltb j cols
                                          then [(i * (cols + 1) + j)%nat] else [])
                                (seq 0 (cols + 1)))).
  apply flat_map_ext_in. intros i _.
  rewrite (flat_map_guarded_seq _ (fun j => [(i * (cols + 1) + j)%nat])).
  apply flat_map_singleton.
Qed.

Lemma length_flat_map_const (A B : Type) (f : A -> list B) (c : nat) (l : list A) :
  (forall x, length (f x) = c) -> length (flat_map f l) = (length l * c)%nat.
Proof.
  intros H. induction l as [|a l IH]; [reflexivity|].
  cbn [flat_map length]. rewrite length_app, H, IH. lia.
Qed.

Lemma nth_flat_map_const (A B : Type) (f : A -> list B) (c : nat) (l : list A)
    (da : A) (d : B) (i j : nat) :
  (forall x, length (f x) = c) ->
  (i < length l)%nat -> (j < c)%nat ->
  nth (i * c + j) (flat_map f l) d = nth j (f (nth i l da)) d.
Proof.
  intros H. revert i; induction l as [|a l IH]; intros i Hi Hj; cbn in Hi; [lia|].
  cbn [flat_map]. destruct i as [|i].
  - cbn [Nat.mul Nat.add nth]. apply app_nth1. now rewrite H.
  - rewrite app_nth2 by (rewrite H; lia).
    rewrite H. replace (S i * c + j - c)%nat with (i * c + j)%nat by lia.
    cbn [nth]. apply IH; lia.
Qed.

Lemma start_ind_length (rows cols : nat) :
  length (AttentionDiscretization.start_ind rows cols) = (rows * cols)%nat.
Proof.
  rewrite start_ind_cells.
  rewrite (length_flat_map_const _ _ _ cols)
    by (intros x; now rewrite length_map, length_seq).
  now rewrite length_seq.
Qed.

Lemma start_ind_nth (rows cols i j : nat) :
  (i < rows)%nat -> (j < cols)%nat ->
  nth (i * cols + j) (AttentionDiscretization.start_ind rows cols) 0%nat
  = (i * (cols + 1) + j)%nat.
Proof.
  intros Hi Hj. rewrite start_ind_cells.
  rewrite (nth_flat_map_const _ _ _ cols _ 0%nat)
    by (try (intros x; now rewrite length_map, length_seq);
        try (now rewrite length_seq); exact Hj).
  rewrite seq_nth by exact Hi. cbn [Nat.add].
  rewrite (nth_indep _ 0%nat ((fun j => (i * (cols + 1) + j)%nat) 0%nat))
    by (now rewrite length_map, length_seq).
  set (f := fun j => (i * (cols + 1) + j)%nat).
  rewrite (map_nth f), seq_nth by exact Hj. reflexivity.
Qed.

Lemma start_ind_closed_form (rows cols k : nat) :
  (k < rows * cols)%nat ->
  nth k (AttentionDiscretization.start_ind rows cols) 0%nat = (k + k / cols)%nat.
Proof.
  intros Hk.
  assert (Hc : (0 < cols)%nat) by (destruct cols; [lia | lia]).
  pose proof (Nat.div_mod_eq k cols) as Hdm.
  assert (Hj : (k mod cols < cols)%nat) by (apply Nat.mod_upper_bound; lia).
  assert (Hi : (k / cols < rows)%nat) by (apply Nat.Div0.div_lt_upper_bound; lia).
  replace k with (k / cols * cols + k mod cols)%nat at 1 by lia.
  rewrite start_ind_nth by assumption. lia.
Qed.

Lemma mapM_ok (A B : Type) (f : A -> result B) (l : list A) :
  (forall x, In x l -> exists y, f x = Ok y) ->
  exists ys, mapM f l = Ok ys /\ length ys = length l.
Proof.
  induction l as [|a l IH]; intros H; [now exists []|].
  destruct (H a (or_introl eq_refl)) as [y Ey].
  destruct IH as (ys & E & L); [intros x Hx; apply H; now right|].
  exists (y :: ys). cbn [mapM]. rewrite Ey. cbn [bind]. rewrite E. cbn [bind length].
  now rewrite L.
Qed.

Lemma mapM_nth_error (A B : Type) (f : A -> result B) (l : list A) (ys : list B)
    (k : nat) (x : A) :
  mapM f l = Ok ys -> nth_error l k = Some x ->
  exists y, nth_error ys k = Some y /\ f x = Ok y.
Proof.
  revert ys k; induction l as [|a l IH]; intros ys k E Hk; [destruct k; discriminate|].
  cbn [mapM] in E. destruct (f a) as [y|e] eqn:Ey; cbn [bind] in E; [|discriminate].
  destruct (mapM f l) as [ys'|e]; cbn [bind] in E; [|discriminate].
  injection E as <-. destruct k as [|k].
  - cbn in Hk. injection Hk as <-. now exists y.
  - cbn [nth_error] in Hk |- *. now apply IH.
Qed.

Lemma combine_map_r (A B : Type) (g : A -> B) (l : list A) :
  combine l (map g l) = map (fun x => (x, g x)) l.
Proof. induction l as [|a l IH]; cbn; [reflexivity | now rewrite IH]. Qed.

Lemma start_ind_in (rows cols s : nat) :
  In s (AttentionDiscretization.start_ind rows cols) ->
  exists i j, (i < rows)%nat /\ (j < cols)%nat /\ s = (i * (cols + 1) + j)%nat.
Proof.
  rewrite start_ind_cells. intros H. apply in_flat_map in H.
  destruct H as (i & Hi & H). apply in_map_iff in H. destruct H as (j & <- & Hj).
  apply in_seq in Hi. apply in_seq in Hj. exists i, j. repeat split; lia.
Qed.

(** X18. On a two-dimensional attention space with [rows] by [cols] bins the
    filter builds [rows * cols] target actions without ever indexing outside
    the box grid of [(rows+1) * (cols+1)] points, and the action number
    [i * cols + j] is the sub-box spanned by the grid points [(i, j)] and
    [(i+1, j+1)], that is the entries [i*(cols+1)+j] and [(i+1)*(cols+1)+j+1]
    of the box discretization. *)
Theorem attention_target_actions (Point : Type) (box : list nat -> list Point)
    (rows cols dims : nat) :
  length (box [(rows + 1)%nat; (cols + 1)%nat]) = ((rows + 1) * (cols + 1))%nat ->
  exists targets,
    AttentionDiscretization.get_unfiltered_action_space box
      (AttentionDiscretization.BinsList [rows; cols]) dims
    = Ok ([rows; cols], targets) /\
    length targets = (rows * cols)%nat /\
    forall i j, (i < rows)%nat -> (j < cols)%nat ->
      exists low_corner high_corner,
        nth_error (box [(rows + 1)%nat; (cols + 1)%nat]) (i * (cols + 1) + j)
          = Some low_corner /\
        nth_error (box [(rows + 1)%nat; (cols + 1)%nat])
                  ((i + 1) * (cols + 1) + (j + 1))
          = Some high_corner /\
        nth_error targets (i * cols + j) = Some (low_corner, high_corner).
Proof.
  intros HL. unfold AttentionDiscretization.get_unfiltered_action_space.
  cbn [AttentionDiscretization.unpack2 map bind].
  set (b := box [(rows + 1)%nat; (cols + 1)%nat]) in *.
  set (f := fun '(start, end_) =>
              low_corner <- index b start ;;
              high_corner <- index b end_ ;; Ok (low_corner, high_corner)).
  unfold AttentionDiscretization.end_ind. rewrite combine_map_r.
  assert (Hin : forall s, In s (AttentionDiscretization.start_ind rows cols) ->
                  exists lo hi, nth_error b s = Some lo /\
                                nth_error b (s + cols + 2) = Some hi).
  { intros s Hs. destruct (start_ind_in _ _ _ Hs) as (i & j & Hi & Hj & ->).
    destruct (nth_error b (i * (cols + 1) + j)) as [lo|] eqn:E1.
    - destruct (nth_error b (i * (cols + 1) + j + cols + 2)) as [hi|] eqn:E2.
      + now exists lo, hi.
      + apply nth_error_None in E2. rewrite HL in E2. nia.
    - apply nth_error_None in E1. rewrite HL in E1. nia. }
  destruct (mapM_ok _ _ f
              (map (fun x => (x, (x + cols + 2)%nat))
                   (AttentionDiscretization.start_ind rows cols)))
    as (ys & E & L).
  { intros [s e] H. apply in_map_iff in H. destruct H as (s' & Heq & Hs').
    injection Heq as <- <-. destruct (Hin s' Hs') as (lo & hi & E1 & E2).
    exists (lo, hi). unfold f, index. now rewrite E1, E2. }
  rewrite E. cbn [bind]. exists ys. split; [reflexivity|].
  rewrite length_map, start_ind_length in L. split; [exact L|].
  intros i j Hi Hj.
  assert (Hk : (i * cols + j < rows * cols)%nat) by nia.
  assert (Hs : nth_error (AttentionDiscretization.start_ind rows cols) (i * cols + j)
               = Some (i * (cols + 1) + j)%nat).
  { rewrite <- (start_ind_nth rows cols i j Hi Hj).
    apply nth_error_nth'. now rewrite start_ind_length. }
  destruct (mapM_nth_error _ _ f _ ys (i * cols + j)
              ((i * (cols + 1) + j)%nat, (i * (cols + 1) + j + cols + 2)%nat) E)
    as ([lo hi] & Hy & Hf).
  { rewrite nth_error_map, Hs. reflexivity. }
  unfold f, index in Hf.
  destruct (nth_error b (i * (cols + 1) + j)) as [lo'|] eqn:E1;
    cbn [bind] in Hf; [|discriminate].
  destruct (nth_error b (i * (cols + 1) + j + cols + 2)) as [hi'|] eqn:E2;
    cbn [bind] in Hf; [|discriminate].
  injection Hf as <- <-. exists lo', hi'.
  split; [reflexivity|]. split; [|exact Hy].
  now replace ((i + 1) * (cols + 1) + (j + 1))%nat
    with (i * (cols + 1) + j + cols + 2)%nat by lia.
Qed.

(** X19. The filter works for exactly two dimensions, as its TODO note says:
    whenever the list of bin counts (given, or made of [dims] copies of a
    single number) does not have two entries, unpacking it raises a value
    error; a single number on a two-dimensional space acts as the pair made of
    it twice. *)
Theorem attention_needs_two_dimensions (Point : Type) (box : list nat -> list Point)
    (num_bins : AttentionDiscretization.NumBins) (dims : nat) :
  (length (match num_bins with
           | AttentionDiscretization.BinsInt n => repeat n dims
           | AttentionDiscretization.BinsList l => l
           end) <> 2%nat ->
   AttentionDiscretization.get_unfiltered_action_space box num_bins dims
   = Raise ValueError) /\
  (forall n,
     AttentionDiscretization.get_unfiltered_action_space box
       (AttentionDiscretization.BinsInt n) 2
     = AttentionDiscretization.get_unfiltered_action_space box
         (AttentionDiscretization.BinsList [n; n]) dims).
Proof.
  split; [|reflexivity].
  intros H. unfold AttentionDiscretization.get_unfiltered_action_space.
  destruct (match num_bins with
            | AttentionDiscretization.BinsInt n => repeat n dims
            | AttentionDiscretization.BinsList l => l
            end) as [|a [|b [|c l]]]; cbn in H |- *; try reflexivity; lia.
Qed.

(** X20. Action number [k], for every action of the grid, starts at grid
    index [k + floor(k / cols)] and ends [cols + 2] entries later.  Both
    indices grow strictly with [k]: different discrete actions are mapped to
    different sub-boxes. *)
Theorem attention_actions_distinct (rows cols : nat) :
  (forall k, (k < rows * cols)%nat ->
     nth k (AttentionDiscretization.start_ind rows cols) 0%nat
       = (k + k / cols)%nat /\
     nth k (AttentionDiscretization.end_ind rows cols) 0%nat
       = (k + k / cols + cols + 2)%nat) /\
  (forall k1 k2, (k1 < k2)%nat -> (k2 < rows * cols)%nat ->
     (nth k1 (AttentionDiscretization.start_ind rows cols) 0
      < nth k2 (AttentionDiscretization.start_ind rows cols) 0)%nat /\
     (nth k1 (AttentionDiscretization.end_ind rows cols) 0
      < nth k2 (AttentionDiscretization.end_ind rows cols) 0)%nat).
Proof.
  assert (F : forall k, (k < rows * cols)%nat ->
            nth k (AttentionDiscretization.end_ind rows cols) 0%nat
            = (nth k (AttentionDiscretization.start_ind rows cols) 0 + cols + 2)%nat).
  { intros k Hk. unfold AttentionDiscretization.end_ind.
    set (g := fun i => (i + cols + 2)%nat).
    rewrite (nth_indep _ 0%nat (g 0%nat)) by (now rewrite length_map, start_ind_length).
    now rewrite (map_nth g). }
  split.
  - intros k Hk. rewrite (F k Hk), (start_ind_closed_form rows cols k Hk).
    split; reflexivity.
  - intros k1 k2 H12 H2.
    assert (E1 := start_ind_closed_form rows cols k1 ltac:(lia)).
    assert (E2 := start_ind_closed_form rows cols k2 H2).
    assert (Hd : (k1 / cols <= k2 / cols)%nat) by (apply Nat.Div0.div_le_mono; lia).
    rewrite !F, E1, E2 by lia. split; lia.
Qed.

End Agents.

(** * Concrete instances

    States without content, transitions with a precomputed return of 0 ([tr])
    and without one ([tr_raw]), a value head that predicts 0, a shuffle that
    keeps the order and a training step that reports zero losses.  The
    instances of [fill_advantages] add the floats in order and hold every
    advantage as the float 0.0, which is exact where the advantages are 0 and
    immaterial where an instance does not look at the stored advantages. *)

Local Abbreviation tr r go :=
  {| state := tt; reward := r; next_state := tt; game_over := go;
     total_return := Some 0;
     info := {| advantage := None; gae_based_value_target := None |} |}.

Local Abbreviation tr_raw r go :=
  {| state := tt; reward := r; next_state := tt; game_over := go;
     total_return := None;
     info := {| advantage := None; gae_based_value_target := None |} |}.

Local Abbreviation zero_head := (fun _ : unit => 0).

Local Abbreviation zero_float := (fun _ : R => PrimFloat.zero).

Local Abbreviation params g l flag mode :=
  {| ap_discount := g; gae_lambda := l;
     estimate_state_value_using_gae := flag;
     policy_gradient_rescaler := mode |}.

Local Abbreviation keep_order := (fun (w : unit) (b : @Batch unit) => (w, b)).

Local Abbreviation zero_step :=
  (fun (w : unit) (_ : @Batch unit) =>
     (w, {| step_total_loss := 0; step_policy_losses := (0, 0);
            step_unclipped_grads := 0; step_fetch_result := (0, 0) |})).

Lemma discount_spec_witness :
  nth 0 (discount [1; 1; 1] (1 / 2)) 0
  = sum_f_R0 (fun k => (1 / 2) ^ k * nth (0 + k) [1; 1; 1] 0)
             (length [1; 1; 1] - 0 - 1) /\
  nth 0 (discount (repeat 1 3) (1 / 2)) 0
  = 1 * (1 - (1 / 2) ^ (3 - 0)) / (1 - 1 / 2).
Proof.
  destruct (discount_spec [1; 1; 1] (1 / 2)) as (_ & Hs & _ & _ & _ & Hc).
  split; [apply Hs; simpl; lia | apply Hc; [lra | lia]].
Defined.

Lemma gae_spec_witness :
  exists advantage target,
    get_general_advantage_estimation_values
      (params (99 / 100) (95 / 100) true GAE) [2; 3] [1; 1; 0]
    = Ok (advantage, target) /\
    advantage = [3871 / 1000; 2].
Proof.
  destruct (gae_spec (params (99 / 100) (95 / 100) true GAE) [2; 3] [1; 1; 0] eq_refl)
    as (d & a & t & E & _ & _ & _ & _ & _ & Hex).
  exists a, t. split; [exact E|].
  exact (proj2 (Hex eq_refl eq_refl eq_refl eq_refl)).
Defined.

Lemma gae_lambda_one_plain_return_witness :
  exists advantage target,
    get_general_advantage_estimation_values
      (params (9 / 10) 1 false GAE) [1; 1] [0; 0; 5]
    = Ok (advantage, target) /\
    length target = 2%nat.
Proof.
  destruct (gae_lambda_one_plain_return (params (9 / 10) 1 false GAE)
              [1; 1] [0; 0; 5] eq_refl eq_refl eq_refl)
    as (a & t & E & L & _).
  exists a, t. split; [exact E | exact L].
Defined.

Lemma a_value_backward_recursion_witness :
  exists target advantage_,
    learn_from_batch zero_head zero_head (params (9 / 10) (95 / 100) false A_VALUE)
                     [tr 1 false; tr 1 false; tr 1 true]
    = Ok (target, advantage_) /\
    target = [271 / 100; 19 / 10; 1] /\
    advantage_ = [271 / 100; 19 / 10; 1].
Proof.
  destruct (a_value_backward_recursion zero_head zero_head
              (params (9 / 10) (95 / 100) false A_VALUE)
              [tr 1 false; tr 1 false] (tr 1 true) eq_refl)
    as (t & a & E & _ & _ & _ & Hex).
  exists t, a. split; [exact E|].
  exact (Hex eq_refl eq_refl eq_refl eq_refl).
Defined.

Lemma learn_from_batch_single_window_witness :
  learn_from_batch zero_head zero_head (params (9 / 10) (95 / 100) false GAE)
                   [tr 1 false; tr 2 true]
  = learn_from_batch zero_head zero_head (params (9 / 10) (95 / 100) false GAE)
                     [tr 1 true; tr 2 true].
Proof.
  apply (learn_from_batch_single_window zero_head zero_head
           (params (9 / 10) (95 / 100) false GAE)
           [tr 1 false; tr 2 true] [tr 1 true; tr 2 true]).
  repeat split; reflexivity.
Defined.

Lemma standardize_spec_witness :
  (length (standardize_exact [0; 2]) = 2%nat /\
   mean (standardize_exact [0; 2]) = 0 /\
   std (standardize_exact [0; 2]) = 1) /\
  Forall (fun v => is_finite (f64_value v) = false)
         (standardize_f64 sum_in_order
            [f64_of_nat 2; f64_of_nat 2; f64_of_nat 2]).
Proof.
  destruct (standardize_spec sum_in_order [0; 2]
              [f64_of_nat 2; f64_of_nat 2; f64_of_nat 2]) as (Hexact & _ & Hzero).
  split.
  - apply Hexact. intros H. specialize (H 0%nat 1%nat). simpl in H.
    assert (E : 0 = 2) by (apply H; lia). lra.
  - apply Hzero. vm_compute. reflexivity.
Defined.

Lemma fill_advantages_windows_witness :
  concat (fst (rollouts [tr 1 false; tr 1 true; tr 1 false]))
    ++ snd (rollouts [tr 1 false; tr 1 true; tr 1 false])
  = [tr 1 false; tr 1 true; tr 1 false].
Proof.
  apply (fill_advantages_windows zero_head sum_in_order zero_float ReturnsEmpty
           (params (99 / 100) (95 / 100) true GAE)
           [tr 1 false; tr 1 true; tr 1 false]).
  - reflexivity.
  - simpl. lia.
Defined.

Lemma episode_isolation_witness :
  (exists a1 t1 a2 t2,
     raw_advantages zero_head ReturnsEmpty (params (99 / 100) (95 / 100) true GAE)
                    ([tr 1 false; tr 2 true] ++ [tr 3 true])
     = Ok (a1 ++ a2, t1 ++ t2) /\
     window_estimates zero_head (params (99 / 100) (95 / 100) true GAE)
                      [tr 1 false; tr 2 true] 0 = Ok (a1, t1) /\
     window_estimates zero_head (params (99 / 100) (95 / 100) true GAE)
                      [tr 3 true] 0 = Ok (a2, t2)) /\
  (exists a1 t1 a2 t2,
     raw_advantages zero_head ReturnsEmpty (params (99 / 100) (95 / 100) true A_VALUE)
                    ([tr 1 false; tr 2 true] ++ [tr 3 true])
     = Ok (a1 ++ a2, t1 ++ t2) /\
     raw_advantages zero_head ReturnsEmpty (params (99 / 100) (95 / 100) true A_VALUE)
                    [tr 1 false; tr 2 true] = Ok (a1, t1) /\
     raw_advantages zero_head ReturnsEmpty (params (99 / 100) (95 / 100) true A_VALUE)
                    [tr 3 true] = Ok (a2, t2)).
Proof.
  split.
  - destruct (episode_isolation zero_head ReturnsEmpty
                (params (99 / 100) (95 / 100) true GAE)
                [tr 1 false; tr 2 true] [tr 3 true])
      as (a1 & t1 & a2 & t2 & E & E1 & E2 & _).
    + exists [tr 1 false], (tr 2 true). repeat split; reflexivity.
    + exists [], (tr 3 true). repeat split; reflexivity.
    + discriminate.
    + exists a1, t1, a2, t2. repeat split; assumption.
  - apply (episode_isolation zero_head ReturnsEmpty
             (params (99 / 100) (95 / 100) true A_VALUE)
             [tr 1 false; tr 2 true] [tr 3 true]).
    + exists [tr 1 false], (tr 2 true). repeat split; reflexivity.
    + exists [], (tr 3 true). repeat split; reflexivity.
    + intros _. repeat constructor; discriminate.
Defined.


Lemma train_network_needs_a_full_minibatch_witness :
  train_network keep_order zero_step 2 tt [tr 1 true] 1 = Raise IndexError.
Proof.
  apply (train_network_needs_a_full_minibatch keep_order zero_step
           (fun w b => Permutation_refl b) 2 tt [tr 1 true] 1).
  - simpl. lia.
  - lia.
Defined.

(** ** Where the code departs from the specification *)

(** C4 as stated fails, on both counts.  The constant array [2, 2, 2] has the
    mean 2 and the standard deviation 0, and every entry becomes [0/0], NaN.
    The non-constant array [2^-600, -2^-600] has the mean 0, its squares
    underflow to 0, the standard deviation is 0 and the entries become the
    two infinities, not an array of mean 0 and standard deviation 1. *)
Lemma standardization_gives_nan_and_inf :
  map f64_value
      (standardize_f64 sum_in_order [f64_of_nat 2; f64_of_nat 2; f64_of_nat 2])
  = [NaN; NaN; NaN] /\
  map f64_value
      (standardize_f64 sum_in_order
         [FloatOps.Z.ldexp PrimFloat.one (-600);
          PrimFloat.opp (FloatOps.Z.ldexp PrimFloat.one (-600))])
  = [PosInf; NegInf].
Proof. split; vm_compute; reflexivity. Qed.

(** Not every constant array ends as NaN: the mean of [0.1, 0.1, 0.1] is
    rounded to the next float above 0.1, the standard deviation is that
    residue, and every entry becomes -1. *)
Lemma constant_advantages_with_rounded_mean :
  standardize_f64 sum_in_order
    [PrimFloat.div (f64_of_nat 1) (f64_of_nat 10);
     PrimFloat.div (f64_of_nat 1) (f64_of_nat 10);
     PrimFloat.div (f64_of_nat 1) (f64_of_nat 10)]
  = [PrimFloat.opp PrimFloat.one; PrimFloat.opp PrimFloat.one;
     PrimFloat.opp PrimFloat.one].
Proof. vm_compute. reflexivity. Qed.

(** C5 as stated fails: the transition after the last [game_over] is in no
    window and its info is left without advantage and value target. *)
Lemma transition_after_last_game_over_gets_nothing :
  rollouts [tr 1 false; tr 1 true; tr 1 false]
  = ([[tr 1 false; tr 1 true]], [tr 1 false]) /\
  exists batch',
    fill_advantages zero_head sum_in_order zero_float ReturnsEmpty
      (params (99 / 100) (95 / 100) true GAE)
                    [tr 1 false; tr 1 true; tr 1 false] = Ok batch' /\
    nth_error batch' 2 = Some (tr 1 false) /\
    nth_error (map (fun t => advantage (info t)) batch') 2 = Some None.
Proof.
  split; [reflexivity|].
  destruct (fill_advantages_gae zero_head sum_in_order zero_float ReturnsEmpty
      (params (99 / 100) (95 / 100) true GAE)
              [tr 1 false; tr 1 true; tr 1 false])
    as (adv & tg & b' & _ & _ & _ & _ & E & _ & Hn).
  - reflexivity.
  - simpl. lia.
  - exists b'. split; [exact E|].
    assert (H2 : nth_error b' 2 = Some (tr 1 false)) by (apply (Hn 2%nat); reflexivity).
    split; [exact H2|]. now rewrite nth_error_map, H2.
Qed.


(** A batch of a single, terminal transition: the squeezed value array is
    zero-dimensional and slicing the window out of it is an index error.  This
    is why the window properties above are stated for batches of any other
    length. *)
Lemma single_transition_batch_faults :
  fill_advantages zero_head sum_in_order zero_float ReturnsEmpty
      (params (99 / 100) (95 / 100) true GAE) [tr 1 true]
  = Raise IndexError.
Proof. reflexivity. Qed.

(** End to end: a two-step episode without reward under a value head that
    predicts 0 has the constant advantages [0, 0]; the advantage written to
    both transitions is NaN. *)
Lemma zero_reward_episode_gets_nan :
  fill_advantages zero_head sum_in_order zero_float ReturnsEmpty
      (params (99 / 100) (95 / 100) true GAE)
                  [tr 0 false; tr 0 true]
  = Ok [set_info (tr 0 false) NaN 0; set_info (tr 0 true) NaN 0].
Proof.
  assert (E : raw_advantages zero_head ReturnsEmpty (params (99 / 100) (95 / 100) true GAE)
                [tr 0 false; tr 0 true] = Ok ([0; 0], [0; 0])).
  { rewrite raw_advantages_windows; [|reflexivity|simpl; lia].
    cbn [rollouts game_over fst estimate_windows]. unfold window_estimates.
    rewrite get_gae_ok by reflexivity.
    cbn [bind app estimate_state_value_using_gae ap_discount gae_lambda rewards states
         map reward state td_residuals removelast map2].
    rewrite !discount_cons, discount_nil. cbn [hd map2 app].
    repeat (f_equal; try lra). }
  unfold fill_advantages. rewrite E. cbn [bind].
  replace (standardize sum_in_order zero_float [0; 0]) with [NaN; NaN]
    by (vm_compute; reflexivity).
  reflexivity.
Qed.

(** ** Instances of the further properties *)

Lemma discount_linear_witness :
  discount (map2 Rplus [1; 2] [3; 4]) (1 / 2)
  = map2 Rplus (discount [1; 2] (1 / 2)) (discount [3; 4] (1 / 2)).
Proof. exact (proj1 (discount_linear [1; 2] [3; 4] 1 (1 / 2) eq_refl)). Defined.

Lemma discount_app_witness :
  nth 0 (discount ([1; 1] ++ [5]) (1 / 2)) 0
  = nth 0 (discount [1; 1] (1 / 2)) 0
    + (1 / 2) ^ (length [1; 1] - 0) * hd 0 (discount [5] (1 / 2)).
Proof. apply (proj2 (discount_app [1; 1] [5] (1 / 2))). simpl. lia. Defined.

Lemma discount_bounded_witness :
  Forall (fun v => - (1 / (1 - 1 / 2)) <= v <= 1 / (1 - 1 / 2))
         (discount [1; -1; 1] (1 / 2)).
Proof.
  apply (discount_bounded [1; -1; 1] (1 / 2) 1).
  - lra.
  - lra.
  - repeat constructor; lra.
Defined.

Lemma gae_shape_errors_witness :
  get_general_advantage_estimation_values
    (params (99 / 100) (95 / 100) true GAE) [1; 2; 3] [1; 2; 3]
  = Raise ValueError.
Proof.
  apply (proj2 (gae_shape_errors (params (99 / 100) (95 / 100) true GAE)
                  [1; 2; 3] [1; 2; 3])).
  - discriminate.
  - simpl. lia.
  - simpl. lia.
  - simpl. lia.
Defined.

Lemma gae_single_reward_broadcasts_witness :
  exists advantage_ target,
    get_general_advantage_estimation_values
      (params (99 / 100) (95 / 100) true GAE) [1] [1; 2; 3]
    = Ok (advantage_, target) /\
    length advantage_ = (length [1; 2; 3] - 1)%nat.
Proof.
  apply (gae_single_reward_broadcasts (params (99 / 100) (95 / 100) true GAE)
           1 [1; 2; 3]).
  simpl. lia.
Defined.

Lemma gae_consistent_critic_witness :
  get_general_advantage_estimation_values
    (params (1 / 2) (95 / 100) true GAE) [1; 1] [3 / 2; 1; 0]
  = Ok (repeat 0 (length [1; 1]), removelast [3 / 2; 1; 0]).
Proof.
  apply (gae_consistent_critic (params (1 / 2) (95 / 100) true GAE)
           [1; 1] [3 / 2; 1; 0]).
  - reflexivity.
  - intros [|[|i]] Hi; simpl in *; try lra; lia.
Defined.

Lemma gae_lambda_zero_witness :
  exists advantage_ target,
    get_general_advantage_estimation_values
      (params (9 / 10) 0 true GAE) [1; 2] [0; 0; 0]
    = Ok (advantage_, target) /\
    length advantage_ = 2%nat.
Proof.
  destruct (gae_lambda_zero (params (9 / 10) 0 true GAE) [1; 2] [0; 0; 0]
              eq_refl eq_refl) as (a & t & E & L & _).
  exists a, t. split; [exact E | exact L].
Defined.

Lemma learn_from_batch_shapes_witness :
  exists target advantage_,
    learn_from_batch zero_head zero_head (params (9 / 10) (95 / 100) false GAE)
                     [tr 1 false; tr 2 true]
    = Ok (target, advantage_) /\
    length target = 2%nat /\ length advantage_ = 2%nat.
Proof.
  apply (proj2 (learn_from_batch_shapes zero_head zero_head
                  (params (9 / 10) (95 / 100) false GAE)
                  [tr 1 false; tr 2 true])).
  discriminate.
Defined.

Lemma backward_pass_is_discount_witness :
  learn_from_batch zero_head zero_head (params (9 / 10) (95 / 100) false A_VALUE)
                   ([tr 1 false] ++ [tr 2 true])
  = Ok (removelast (discount ([1; 2] ++ [0]) (9 / 10)),
        map2 Rminus (removelast (discount ([1; 2] ++ [0]) (9 / 10))) [0; 0]).
Proof.
  exact (backward_pass_is_discount zero_head zero_head
           (params (9 / 10) (95 / 100) false A_VALUE)
           [tr 1 false] (tr 2 true) (or_introl eq_refl)).
Defined.

Lemma gae_lambda_one_is_a_value_witness :
  learn_from_batch zero_head zero_head (params (9 / 10) (95 / 100) true A_VALUE)
                   [tr 1 false; tr 2 false]
  = learn_from_batch zero_head zero_head (params (9 / 10) 1 false GAE)
                     [tr 1 false; tr 2 false].
Proof.
  apply (gae_lambda_one_is_a_value zero_head zero_head
           (params (9 / 10) (95 / 100) true A_VALUE) (params (9 / 10) 1 false GAE)
           [tr 1 false; tr 2 false]); reflexivity.
Defined.

Lemma fill_advantages_stores_only_in_gae_mode_witness :
  fill_advantages zero_head sum_in_order zero_float ReturnsEmpty
      (params (99 / 100) (95 / 100) true A_VALUE) [tr 1 false; tr 2 true]
  = Ok [tr 1 false; tr 2 true].
Proof.
  apply (fill_advantages_stores_only_in_gae_mode zero_head sum_in_order zero_float
           ReturnsEmpty (params (99 / 100) (95 / 100) true A_VALUE)
           [tr 1 false; tr 2 true]).
  - discriminate.
  - right. repeat constructor; discriminate.
Defined.

Lemma fill_advantages_faults_witness :
  fill_advantages zero_head sum_in_order zero_float ReturnsEmpty
      (params (99 / 100) (95 / 100) true GAE) [tr 1 true]
  = Raise IndexError /\
  fill_advantages zero_head sum_in_order zero_float ReturnsEmpty
      (params (99 / 100) (95 / 100) true A_VALUE) [tr_raw 1 false; tr_raw 2 true]
  = Raise ValueError /\
  exists batch',
    fill_advantages zero_head sum_in_order zero_float ReturnsEmpty
      (params (99 / 100) (95 / 100) true GAE) [tr 1 false]
    = Ok batch' /\
    length batch' = 1%nat.
Proof.
  split; [|split].
  - apply (proj1 (fill_advantages_faults zero_head sum_in_order zero_float
                    ReturnsEmpty (params (99 / 100) (95 / 100) true GAE)
                    [tr 1 true])
             (tr 1 true)); reflexivity.
  - apply (proj1 (proj2 (fill_advantages_faults zero_head sum_in_order zero_float
                           ReturnsEmpty (params (99 / 100) (95 / 100) true A_VALUE)
                           [tr_raw 1 false; tr_raw 2 true]))).
    + reflexivity.
    + intros H. inversion H as [|? ? Ht _]. now apply Ht.
  - apply (proj2 (proj2 (fill_advantages_faults zero_head sum_in_order zero_float
                           ReturnsEmpty (params (99 / 100) (95 / 100) true GAE)
                           [tr 1 false]))).
    right. exists (tr 1 false). split; reflexivity.
Defined.

Lemma fill_advantages_frame_witness :
  exists batch',
    fill_advantages zero_head sum_in_order zero_float ReturnsEmpty
      (params (99 / 100) (95 / 100) true GAE)
                    [tr 1 false; tr 2 true] = Ok batch' /\
    rewards batch' = [1; 2] /\ game_overs batch' = [false; true].
Proof.
  destruct (fill_advantages_gae zero_head sum_in_order zero_float ReturnsEmpty
      (params (99 / 100) (95 / 100) true GAE)
              [tr 1 false; tr 2 true])
    as (adv & tg & b' & _ & _ & _ & _ & E & _).
  - reflexivity.
  - simpl. lia.
  - exists b'. split; [exact E|].
    destruct (fill_advantages_frame zero_head sum_in_order zero_float ReturnsEmpty
                (params (99 / 100) (95 / 100) true GAE)
                [tr 1 false; tr 2 true] b' E) as (_ & Hr & _ & Hg & _).
    split; assumption.
Defined.

Lemma terminal_value_target_is_reward_witness :
  exists batch' t',
    fill_advantages zero_head sum_in_order zero_float ReturnsEmpty
      (params (99 / 100) (95 / 100) true GAE)
                    [tr 1 false; tr 2 true] = Ok batch' /\
    nth_error batch' 1 = Some t' /\
    gae_based_value_target (info t') = Some 2.
Proof.
  destruct (terminal_value_target_is_reward zero_head sum_in_order zero_float ReturnsEmpty
              (params (99 / 100) (95 / 100) true GAE) [tr 1 false; tr 2 true])
    as (b' & E & H).
  - reflexivity.
  - simpl. lia.
  - destruct (H 1%nat (tr 2 true) eq_refl eq_refl) as (t' & Hn & Ht).
    exists b', t'. repeat split; assumption.
Defined.

Lemma train_network_errors_witness :
  train_network keep_order zero_step 0 tt [tr 1 true] 3 = Raise ZeroDivisionError.
Proof.
  apply (proj2 (train_network_errors keep_order zero_step 0 tt [tr 1 true] 3)).
  lia.
Defined.



Lemma attention_target_actions_witness :
  exists targets,
    AttentionDiscretization.get_unfiltered_action_space
      (fun _ : list nat => seq 0 6)
      (AttentionDiscretization.BinsList [1%nat; 2%nat]) 2%nat
    = Ok ([1%nat; 2%nat], targets) /\
    length targets = 2%nat.
Proof.
  destruct (attention_target_actions nat (fun _ : list nat => seq 0 6) 1 2 2 eq_refl)
    as (targets & E & L & _).
  exists targets. split; [exact E | exact L].
Defined.

Lemma attention_needs_two_dimensions_witness :
  AttentionDiscretization.get_unfiltered_action_space
    (fun _ : list nat => seq 0 6) (AttentionDiscretization.BinsInt 3) 3
  = Raise ValueError.
Proof.
  apply (proj1 (attention_needs_two_dimensions nat (fun _ : list nat => seq 0 6)
                  (AttentionDiscretization.BinsInt 3) 3)).
  simpl. lia.
Defined.

Lemma attention_actions_distinct_witness :
  nth 3 (AttentionDiscretization.start_ind 2 2) 0%nat = 4%nat /\
  nth 3 (AttentionDiscretization.end_ind 2 2) 0%nat = 8%nat /\
  (nth 1 (AttentionDiscretization.start_ind 2 2) 0
   < nth 2 (AttentionDiscretization.start_ind 2 2) 0)%nat.
Proof.
  destruct (attention_actions_distinct 2 2) as (Hform & Hgrow).
  assert (H3 : (3 < 2 * 2)%nat) by (simpl; lia).
  assert (H12 : (1 < 2)%nat) by lia.
  assert (H2 : (2 < 2 * 2)%nat) by (simpl; lia).
  split; [exact (proj1 (Hform 3%nat H3))|].
  split; [exact (proj2 (Hform 3%nat H3))|].
  exact (proj1 (Hgrow 1%nat 2%nat H12 H2)).
Defined.
